(** * StellarCert: issuer-scoped API-key rate limiting

    A shallow embedding of [RateLimitService] (rate-limit.service.ts),
    [RateLimitGuard] (rate-limit.guard.ts) and the issuer entity, with the
    properties of the rate limiter stated and proved over it.

    Conventions of the embedding.
    - JavaScript numbers that hold millisecond timestamps, counters and
      limits are integers; they are modelled as [Z].  Non-integral
      configuration values are outside the model.
    - [Date.now()] is an explicit argument [now] of every operation that
      reads the clock.
    - The service object's two maps are the fields [usage] and [issuerCache]
      of [State].  [usage] is a JS [Map] that is iterated by
      [getUsageSummary], so it is an association list in insertion order;
      [issuerCache] is only looked up and set, so it is a [gmap].
    - Everything the service does to its collaborators (queue, logger,
      metrics, issuer repository) is appended to the event [trace] of
      [State], oldest event first. *)

From Stdlib Require Import ZArith Lia Ascii String.
From stdpp Require Import gmap strings list.

Local Open Scope string_scope.
Local Open Scope list_scope.
Local Open Scope Z_scope.

(** ** Data model *)

Inductive IssuerTier : Set := FREE | PAID.

#[global] Instance IssuerTier_eq_dec : EqDecision IssuerTier.
Proof. solve_decision. Defined.

Record IssuerContext : Set := mkIssuerContext {
  ctx_id : string;
  ctx_tier : IssuerTier;
}.

Record RateLimitResult : Set := mkResult {
  allowed : bool;
  limit : Z;
  remaining : Z;
  resetAt : Z;
}.

Record UsageBucket : Set := mkBucket {
  windowStart : Z;
  count : Z;
  tier : IssuerTier;
  notifiedUpgrade : bool;
}.

Record CachedIssuer : Set := mkCached {
  issuerId : string;
  cachedTier : IssuerTier;
  cacheUntil : Z;
}.

(** The columns of the [Issuer] entity that the rate limiter reads.  [tier]
    is read through [issuer.tier || FREE], so an unset tier is [None];
    [apiKeyHash] is a nullable column. *)
Record Issuer : Set := mkIssuer {
  issuer_id : string;
  isActive : bool;
  issuer_tier : option IssuerTier;
  apiKeyHash : option string;
}.

(** [RateLimitJobType] with the payload each job is added with. *)
Inductive Job : Set :=
| EXCEEDED (jIssuer : string) (jTier : IssuerTier) (jRoute : string)
           (jTimestamp jLimit jCount : Z)
| UPGRADE_NOTIFICATION (jIssuer jRoute : string) (jLimit jCount : Z).

(** What the service does to its collaborators.  [QueueAdd j ok] is one call
    [rateLimitQueue.add(..)]; [ok] tells whether the queue accepted it. *)
Inductive Event : Set :=
| QueueAdd (j : Job) (ok : bool)
| LogReached (eIssuer : string) (eCount eLimit : Z) (eRoute : string)
| MetricRecorded (eRoute : string)
| DbFind (eHash : string).

Record Config : Set := mkConfig {
  windowMs : Z;
  freeLimit : Z;
  paidLimit : Z;
}.

(** [Number(configService.get(..)) || d]: an unset or non-numeric value
    ([None]) and the value 0 fall back to the default. *)
Definition numberOr (raw : option Z) (d : Z) : Z :=
  match raw with
  | Some v => if v =? 0 then d else v
  | None => d
  end.

(** The constructor of [RateLimitService]. *)
Definition configure (rawWindow rawFree rawPaid : option Z) : Config :=
  {| windowMs := numberOr rawWindow 60000;
     freeLimit := numberOr rawFree 60;
     paidLimit := numberOr rawPaid 600 |}.

Definition defaultConfig : Config := configure None None None.

Record State : Type := mkState {
  usage : list (string * UsageBucket);
  issuerCache : gmap string CachedIssuer;
  trace : list Event;
}.

Definition initState : State :=
  {| usage := []; issuerCache := ∅; trace := [] |}.

Definition setUsage (u : list (string * UsageBucket)) (s : State) : State :=
  {| usage := u; issuerCache := issuerCache s; trace := trace s |}.

Definition setCache (c : gmap string CachedIssuer) (s : State) : State :=
  {| usage := usage s; issuerCache := c; trace := trace s |}.

Definition emit (e : Event) (s : State) : State :=
  {| usage := usage s; issuerCache := issuerCache s; trace := trace s ++ [e] |}.

(** The behaviour of the external queue: given the job and everything that
    happened so far, does [add] succeed? *)
Definition QueueOracle : Type := Job -> list Event -> bool.

(** ** The usage map *)

(** [this.usage.get(key)] *)
Fixpoint usageGet (key : string) (u : list (string * UsageBucket))
  : option UsageBucket :=
  match u with
  | [] => None
  | (k, b) :: rest => if String.eqb k key then Some b else usageGet key rest
  end.

(** Writing the bucket stored under an existing key.  The bucket object that
    [consume] mutates is the one held by the map, so its field writes are
    writes to this entry; the entry keeps its position. *)
Fixpoint usageWrite (key : string) (b : UsageBucket)
  (u : list (string * UsageBucket)) : list (string * UsageBucket) :=
  match u with
  | [] => []
  | (k, b0) :: rest =>
      if String.eqb k key then (k, b) :: rest
      else (k, b0) :: usageWrite key b rest
  end.

(** [this.usage.set(key, bucket)] for a key that is not yet in the map: the
    entry goes last in iteration order. *)
Definition usageAdd (key : string) (b : UsageBucket)
  (u : list (string * UsageBucket)) : list (string * UsageBucket) :=
  u ++ [(key, b)].

(** ** The side-effect dispatcher *)

(** [rateLimitQueue.add(..)], as seen from the caller of an async method
    that is not awaited: the call is made, the outcome is not observed. *)
Definition queueAdd (q : QueueOracle) (j : Job) (s : State) : bool * State :=
  let ok := q j (trace s) in (ok, emit (QueueAdd j ok) s).

Definition enqueueExceeded (q : QueueOracle) (issuer : string)
  (t : IssuerTier) (routeKey : string) (timestamp lim cnt : Z) (s : State)
  : State :=
  snd (queueAdd q (EXCEEDED issuer t routeKey timestamp lim cnt) s).

(** [notifyUpgrade] logs only once the awaited [add] has resolved, which is
    after its caller has gone on; the trace records the log line where the
    call is made. *)
Definition notifyUpgrade (q : QueueOracle) (issuer routeKey : string)
  (lim cnt : Z) (s : State) : State :=
  let '(ok, s1) := queueAdd q (UPGRADE_NOTIFICATION issuer routeKey lim cnt) s in
  if ok then emit (LogReached issuer cnt lim routeKey) s1 else s1.

(** ** The decision engine *)

(** [`${issuerId}:${routeKey}`] *)
Definition bucketKey (issuer routeKey : string) : string :=
  issuer +:+ ":" +:+ routeKey.

(** [tier === IssuerTier.PAID ? this.paidLimit : this.freeLimit] *)
Definition tierLimit (cfg : Config) (t : IssuerTier) : Z :=
  match t with PAID => paidLimit cfg | FREE => freeLimit cfg end.

(** [Math.floor(limit * 0.8)] on an integral limit.  The double nearest to
    0.8 exceeds it by a factor of [1 + 2^-54], too little to move the
    product across an integer for any limit below [2^50], so the floor is
    that of the exact [4 * limit / 5]. *)
Definition upgradeThreshold (lim : Z) : Z := (4 * lim) / 5.

Definition freshBucket (now : Z) (t : IssuerTier) : UsageBucket :=
  {| windowStart := now; count := 0; tier := t; notifiedUpgrade := false |}.

(** [let bucket = this.usage.get(key); if (!bucket) { .. this.usage.set(..) }] *)
Definition fetchOrCreate (key : string) (now : Z) (t : IssuerTier)
  (u : list (string * UsageBucket))
  : UsageBucket * list (string * UsageBucket) :=
  match usageGet key u with
  | Some b => (b, u)
  | None => (freshBucket now t, usageAdd key (freshBucket now t) u)
  end.

(** [if (now - bucket.windowStart >= this.windowMs) { .. }] *)
Definition rollover (cfg : Config) (now : Z) (t : IssuerTier)
  (b : UsageBucket) : UsageBucket :=
  if now - windowStart b >=? windowMs cfg
  then {| windowStart := now; count := 0; tier := t; notifiedUpgrade := false |}
  else b.

Definition increment (b : UsageBucket) : UsageBucket :=
  {| windowStart := windowStart b; count := count b + 1;
     tier := tier b; notifiedUpgrade := notifiedUpgrade b |}.

Definition markNotified (b : UsageBucket) : UsageBucket :=
  {| windowStart := windowStart b; count := count b;
     tier := tier b; notifiedUpgrade := true |}.

(** The condition of the upgrade nudge, evaluated after the increment. *)
Definition shouldNotify (t : IssuerTier) (lim : Z) (b : UsageBucket) : bool :=
  bool_decide (t = FREE) && negb (notifiedUpgrade b)
  && (count b >=? upgradeThreshold lim).

Definition consume (cfg : Config) (q : QueueOracle) (now : Z)
  (issuer : string) (t : IssuerTier) (routeKey : string) (s : State)
  : RateLimitResult * State :=
  let key := bucketKey issuer routeKey in
  let lim := tierLimit cfg t in
  let '(b0, u0) := fetchOrCreate key now t (usage s) in
  let b1 := rollover cfg now t b0 in
  if count b1 >=? lim then
    let s1 := setUsage (usageWrite key b1 u0) s in
    let s2 := enqueueExceeded q issuer t routeKey now lim (count b1) s1 in
    ({| allowed := false; limit := lim; remaining := 0;
        resetAt := windowStart b1 + windowMs cfg |}, s2)
  else
    let b2 := increment b1 in
    let rem := Z.max (lim - count b2) 0 in
    let rst := windowStart b2 + windowMs cfg in
    let '(b3, s3) :=
      if shouldNotify t lim b2
      then (markNotified b2,
            notifyUpgrade q issuer routeKey lim (count b2)
              (setUsage (usageWrite key (markNotified b2) u0) s))
      else (b2, setUsage (usageWrite key b2 u0) s) in
    let s4 := emit (MetricRecorded routeKey) s3 in
    ({| allowed := true; limit := lim; remaining := rem; resetAt := rst |}, s4).

(** ** The usage summary *)

(** [key.split(':')] *)
Fixpoint splitOn (sep : ascii) (s : string) : list string :=
  match s with
  | EmptyString => [EmptyString]
  | String c rest =>
      if Ascii.eqb c sep then EmptyString :: splitOn sep rest
      else match splitOn sep rest with
           | [] => [String c EmptyString]
           | h :: tl => String c h :: tl
           end
  end.

(** One element of the summary.  [row_route] is the second component of the
    destructured split, [undefined] ([None]) when the key has no colon. *)
Record UsageRow : Set := mkRow {
  row_issuerId : string;
  row_route : option string;
  row_tier : IssuerTier;
  row_count : Z;
  row_limit : Z;
  row_resetAt : Z;
}.

Definition usageRow (cfg : Config) (key : string) (b : UsageBucket) : UsageRow :=
  let parts := splitOn ":" key in
  {| row_issuerId := hd EmptyString parts;
     row_route := parts !! 1%nat;
     row_tier := tier b;
     row_count := count b;
     row_limit := tierLimit cfg (tier b);
     row_resetAt := windowStart b + windowMs cfg |}.

(** The loop over [this.usage.entries()], expired buckets skipped. *)
Fixpoint summarize (cfg : Config) (now : Z) (u : list (string * UsageBucket))
  : list UsageRow :=
  match u with
  | [] => []
  | (key, b) :: rest =>
      if now - windowStart b >=? windowMs cfg then summarize cfg now rest
      else usageRow cfg key b :: summarize cfg now rest
  end.

Definition getUsageSummary (cfg : Config) (now : Z) (s : State)
  : list UsageRow :=
  summarize cfg now (usage s).

(** ** The issuer directory cache *)

Inductive Failure : Set :=
| StoreUnavailable
| Unauthorized
| TooManyRequests (retryAfterSeconds : Z).

(** How a call ends: with a value, or by throwing (rejecting). *)
Inductive Outcome (A : Type) : Type :=
| Returned (a : A)
| Thrown (e : Failure).
Arguments Returned {A} a.
Arguments Thrown {A} e.

(** [issuerRepository.findOne({ where: { apiKeyHash, isActive: true } })]
    over the rows of the issuer table. *)
Definition findOne (h : string) (rows : list Issuer) : option Issuer :=
  List.find (fun i => bool_decide (apiKeyHash i = Some h) && isActive i) rows.

(** [cached && cached.cacheUntil > now] *)
Definition cacheHit (now : Z) (c : option CachedIssuer) : option IssuerContext :=
  match c with
  | Some e =>
      if cacheUntil e >? now
      then Some {| ctx_id := issuerId e; ctx_tier := cachedTier e |}
      else None
  | None => None
  end.

(** [resolveIssuer].  [sha256] is the hex digest of the key; [db] is the
    issuer table as it is when the call is made, [None] when the store
    cannot be reached and [findOne] rejects. *)
Definition resolveIssuer (sha256 : string -> string)
  (db : option (list Issuer)) (now : Z) (apiKey : string) (s : State)
  : Outcome (option IssuerContext) * State :=
  match cacheHit now (issuerCache s !! apiKey) with
  | Some ctx => (Returned (Some ctx), s)
  | None =>
      let apiKeyHash := sha256 apiKey in
      let s1 := emit (DbFind apiKeyHash) s in
      match db with
      | None => (Thrown StoreUnavailable, s1)
      | Some rows =>
          match findOne apiKeyHash rows with
          | None => (Returned None, s1)
          | Some issuer =>
              let t := default FREE (issuer_tier issuer) in
              (Returned (Some {| ctx_id := issuer_id issuer; ctx_tier := t |}),
               setCache
                 (<[apiKey := {| issuerId := issuer_id issuer;
                                 cachedTier := t;
                                 cacheUntil := now + 5 * 60000 |}]>
                    (issuerCache s1)) s1)
          end
      end
  end.

(** ** The request gate *)

(** [request.headers['x-api-key']] is a string, an array of strings, or
    absent. *)
Inductive HeaderValue : Set :=
| HeaderString (v : string)
| HeaderArray (vs : list string).

Record Request : Set := mkRequest {
  xApiKey : option HeaderValue;
  routePath : option string;     (* request.route?.path *)
  originalUrl : option string;
  url : string;
}.

(** JavaScript truthiness of a string. *)
Definition truthy (s : string) : bool := negb (String.eqb s "").

Definition apiKeyOf (req : Request) : option string :=
  match xApiKey req with
  | Some (HeaderString v) => Some v
  | Some (HeaderArray vs) => head vs
  | None => None
  end.

(** [request.route?.path || request.originalUrl || request.url] *)
Definition routePathOf (req : Request) : string :=
  let viaUrl :=
    match originalUrl req with
    | Some o => if truthy o then o else url req
    | None => url req
    end in
  match routePath req with
  | Some p => if truthy p then p else viaUrl
  | None => viaUrl
  end.

(** [Math.ceil(x / 1000)] *)
Definition ceilSeconds (x : Z) : Z := - ((- x) / 1000).

Record GuardResult : Type := mkGuardResult {
  outcome : Outcome bool;
  headers : list (string * Z);
  attachedIssuer : option IssuerContext;
}.

(** [canActivate].  The three clock readings are the ones taken by
    [resolveIssuer], by [consume] and by the retry-after computation. *)
Definition canActivate (cfg : Config) (q : QueueOracle)
  (sha256 : string -> string) (db : option (list Issuer))
  (tResolve tConsume tRetry : Z) (req : Request) (s : State)
  : GuardResult * State :=
  let pass := {| outcome := Returned true; headers := [];
                 attachedIssuer := None |} in
  match apiKeyOf req with
  | None => (pass, s)
  | Some apiKey =>
      if negb (truthy apiKey) then (pass, s) else
      match resolveIssuer sha256 db tResolve apiKey s with
      | (Thrown e, s1) =>
          ({| outcome := Thrown e; headers := []; attachedIssuer := None |}, s1)
      | (Returned None, s1) =>
          ({| outcome := Thrown Unauthorized; headers := [];
              attachedIssuer := None |}, s1)
      | (Returned (Some issuer), s1) =>
          let '(result, s2) :=
            consume cfg q tConsume (ctx_id issuer) (ctx_tier issuer)
              (routePathOf req) s1 in
          let hs := [("X-RateLimit-Limit", limit result);
                     ("X-RateLimit-Remaining", remaining result);
                     ("X-RateLimit-Reset", resetAt result / 1000)] in
          if allowed result
          then ({| outcome := Returned true; headers := hs;
                   attachedIssuer := Some issuer |}, s2)
          else
            let retryAfterSeconds :=
              Z.max (ceilSeconds (resetAt result - tRetry)) 1 in
            ({| outcome := Thrown (TooManyRequests retryAfterSeconds);
                headers := hs ++ [("Retry-After", retryAfterSeconds)];
                attachedIssuer := Some issuer |}, s2)
      end
  end.

(** ** Sequences of calls *)

Record Call : Set := mkCall {
  c_now : Z;
  c_issuer : string;
  c_tier : IssuerTier;
  c_route : string;
}.

Definition callKey (c : Call) : string := bucketKey (c_issuer c) (c_route c).

Definition step (cfg : Config) (q : QueueOracle) (c : Call) (s : State)
  : RateLimitResult * State :=
  consume cfg q (c_now c) (c_issuer c) (c_tier c) (c_route c) s.

Fixpoint runCalls (cfg : Config) (q : QueueOracle) (cs : list Call) (s : State)
  : list RateLimitResult * State :=
  match cs with
  | [] => ([], s)
  | c :: rest =>
      let '(r, s1) := step cfg q c s in
      let '(rs, s2) := runCalls cfg q rest s1 in
      (r :: rs, s2)
  end.

Record Lookup : Set := mkLookup {
  l_now : Z;
  l_key : string;
  l_db : option (list Issuer);
}.

Definition resolveStep (sha256 : string -> string) (l : Lookup) (s : State)
  : Outcome (option IssuerContext) * State :=
  resolveIssuer sha256 (l_db l) (l_now l) (l_key l) s.

Fixpoint runLookups (sha256 : string -> string) (ls : list Lookup) (s : State)
  : list (Outcome (option IssuerContext)) * State :=
  match ls with
  | [] => ([], s)
  | l :: rest =>
      let '(r, s1) := resolveStep sha256 l s in
      let '(rs, s2) := runLookups sha256 rest s1 in
      (r :: rs, s2)
  end.

(** Counting events of the trace. *)

Definition isExceededAdd (e : Event) : bool :=
  match e with QueueAdd (EXCEEDED _ _ _ _ _ _) _ => true | _ => false end.

Definition isUpgradeAddFor (key : string) (e : Event) : bool :=
  match e with
  | QueueAdd (UPGRADE_NOTIFICATION i r _ _) _ => String.eqb (bucketKey i r) key
  | _ => false
  end.

Definition countEvents (p : Event -> bool) (tr : list Event) : nat :=
  length (List.filter p tr).

Definition onKey (key : string) (c : Call) : bool := String.eqb (callKey c) key.

Definition hits (key : string) (cs : list Call) : Z :=
  Z.of_nat (length (List.filter (onKey key) cs)).

Definition denials (rs : list RateLimitResult) : nat :=
  length (List.filter (fun r => negb (allowed r)) rs).

(** The bucket [consume] works on once it has fetched or created it and
    applied the rollover check. *)
Definition entered (cfg : Config) (now : Z) (t : IssuerTier) (key : string)
  (u : list (string * UsageBucket)) : UsageBucket :=
  rollover cfg now t (fst (fetchOrCreate key now t u)).

(** The bucket [consume] leaves behind. *)
Definition settled (cfg : Config) (t : IssuerTier) (b1 : UsageBucket)
  : UsageBucket :=
  if count b1 >=? tierLimit cfg t then b1
  else if shouldNotify t (tierLimit cfg t) (increment b1)
       then markNotified (increment b1) else increment b1.

(** The events [consume] appends. *)
Definition emitted (cfg : Config) (q : QueueOracle) (now : Z) (issuer : string)
  (t : IssuerTier) (routeKey : string) (b1 : UsageBucket) (tr : list Event)
  : list Event :=
  let lim := tierLimit cfg t in
  if count b1 >=? lim then
    let j := EXCEEDED issuer t routeKey now lim (count b1) in
    [QueueAdd j (q j tr)]
  else if shouldNotify t lim (increment b1) then
    let j := UPGRADE_NOTIFICATION issuer routeKey lim (count b1 + 1) in
    QueueAdd j (q j tr)
      :: (if q j tr then [LogReached issuer (count b1 + 1) lim routeKey] else [])
      ++ [MetricRecorded routeKey]
  else [MetricRecorded routeKey].

(** ** Windows of a bucket *)

(** The consume of a FREE-tier window on which the upgrade notice goes out. *)
Definition noticeAt (cfg : Config) : Z :=
  Z.max 1 (upgradeThreshold (freeLimit cfg)).

(** A call on the bucket [key] is made at tier FREE before the window that
    started at [t0] ends; calls on other buckets are unconstrained. *)
Definition inWindowFree (cfg : Config) (key : string) (t0 : Z) (c : Call)
  : Prop :=
  callKey c = key -> c_tier c = FREE /\ c_now c - t0 < windowMs cfg.

(** The bucket after [n] consumes of the window that started at [t0];
    [base] upgrade notices had been sent for it before the window. *)
Definition WindowAt (cfg : Config) (key : string) (t0 : Z) (base : nat)
  (n : Z) (s : State) : Prop :=
  exists b,
    usageGet key (usage s) = Some b
    /\ windowStart b = t0
    /\ count b = Z.min n (freeLimit cfg)
    /\ notifiedUpgrade b = (noticeAt cfg <=? n)
    /\ countEvents (isUpgradeAddFor key) (trace s)
       = (base + if (noticeAt cfg <=? n)%Z then 1 else 0)%nat.

(** The bucket is absent, or its window is over when the call is made. *)
Definition opensWindow (cfg : Config) (c : Call) (s : State) : Prop :=
  match usageGet (callKey c) (usage s) with
  | Some b => windowMs cfg <= c_now c - windowStart b
  | None => True
  end.

(** The count stored for a bucket. *)
Definition bucketCount (key : string) (s : State) : option Z :=
  count <$> usageGet key (usage s).

(** Concrete oracles and calls used in the examples. *)
Definition acceptAll : QueueOracle := fun _ _ => true.
Definition rejectAll : QueueOracle := fun _ _ => false.

Definition callsAt (issuer : string) (t : IssuerTier) (routeKey : string)
  (from : Z) (n : nat) : list Call :=
  List.map (fun i => mkCall (from + Z.of_nat i) issuer t routeKey) (seq 0 n).

(** ** Resolutions *)

(** The identity [resolveIssuer] builds from an issuer row. *)
Definition contextOf (i : Issuer) : IssuerContext :=
  {| ctx_id := issuer_id i; ctx_tier := default FREE (issuer_tier i) |}.

(** A lookup on [key] is made before [deadline]; lookups of other keys are
    unconstrained. *)
Definition beforeExpiry (key : string) (deadline : Z) (l : Lookup) : Prop :=
  l_key l = key -> l_now l < deadline.

(** The store, as it was when the lookup [l] was made, held an active issuer
    whose stored hash is the hash of [key], and [ctx] is its identity. *)
Definition servedBy (sha256 : string -> string) (l : Lookup) (key : string)
  (ctx : IssuerContext) : Prop :=
  l_key l = key
  /\ exists rows issuer,
       l_db l = Some rows /\ In issuer rows /\ isActive issuer = true
       /\ apiKeyHash issuer = Some (sha256 key) /\ ctx = contextOf issuer.

(** Every cache entry was written by a lookup of the history that found its
    issuer active in the store, and expires five minutes after it. *)
Definition CacheJustified (sha256 : string -> string) (hist : list Lookup)
  (s : State) : Prop :=
  forall k e,
    issuerCache s !! k = Some e ->
    exists l, In l hist
      /\ servedBy sha256 l k {| ctx_id := issuerId e; ctx_tier := cachedTier e |}
      /\ cacheUntil e = l_now l + 5 * 60000.

(** ** Keys and colons *)

Fixpoint hasColon (s : string) : bool :=
  match s with
  | EmptyString => false
  | String c rest => Ascii.eqb c ":" || hasColon rest
  end.

(** The part of a string before its first colon. *)
Fixpoint untilColon (s : string) : string :=
  match s with
  | EmptyString => EmptyString
  | String c rest => if Ascii.eqb c ":" then EmptyString
                     else String c (untilColon rest)
  end.

Definition live (cfg : Config) (now : Z) (e : string * UsageBucket) : bool :=
  negb (now - windowStart (snd e) >=? windowMs cfg).

(** A stand-in for the digest and issuer rows, used in the examples. *)
Definition demoHash (k : string) : string := "sha256:" +:+ k.

Definition demoIssuer (active : bool) : Issuer :=
  {| issuer_id := "issuer-1"; isActive := active; issuer_tier := Some PAID;
     apiKeyHash := Some (demoHash "key-1") |}.

(** ** The usage endpoint *)

(** [RateLimitController.getUsage]: the configured window length and the
    summary. *)
Definition getUsage (cfg : Config) (now : Z) (s : State) : Z * list UsageRow :=
  (windowMs cfg, getUsageSummary cfg now s).

(** ** Windows at any tier *)

(** A call on the bucket [key] is made at tier [t] before the window that
    started at [t0] ends; calls on other buckets are unconstrained. *)
Definition inWindowAt (cfg : Config) (t : IssuerTier) (key : string) (t0 : Z)
  (c : Call) : Prop :=
  callKey c = key -> c_tier c = t /\ c_now c - t0 < windowMs cfg.

(** The bucket after [n] consumes, all at tier [t], of the window that
    started at [t0]. *)
Definition CountAt (cfg : Config) (t : IssuerTier) (key : string) (t0 : Z)
  (n : Z) (s : State) : Prop :=
  exists b,
    usageGet key (usage s) = Some b
    /\ windowStart b = t0
    /\ count b = Z.min n (tierLimit cfg t).

(** ** Invariants of the usage map *)

(** The largest count a bucket can reach. *)
Definition countCap (cfg : Config) : Z :=
  Z.max 0 (Z.max (freeLimit cfg) (paidLimit cfg)).

(** Keys are unique, counts stay within the limits, and no window starts
    after [now]. *)
Definition UsageOk (cfg : Config) (now : Z) (u : list (string * UsageBucket))
  : Prop :=
  NoDup (List.map fst u)
  /\ List.Forall (fun e => 0 <= count (snd e) <= countCap cfg
                          /\ windowStart (snd e) <= now) u.

(** The times of the calls never go back, starting from [now]. *)
Fixpoint clockFrom (now : Z) (cs : list Call) : Prop :=
  match cs with
  | [] => True
  | c :: rest => now <= c_now c /\ clockFrom (c_now c) rest
  end.

Definition lastTime (now : Z) (cs : list Call) : Z :=
  List.last (List.map c_now cs) now.

(** ** More event counts *)

Definition isMetric (e : Event) : bool :=
  match e with MetricRecorded _ => true | _ => false end.

Definition isLog (e : Event) : bool :=
  match e with LogReached _ _ _ _ => true | _ => false end.

Definition isAcceptedUpgrade (e : Event) : bool :=
  match e with QueueAdd (UPGRADE_NOTIFICATION _ _ _ _) ok => ok | _ => false end.

Definition isDbFindEvent (e : Event) : bool :=
  match e with DbFind _ => true | _ => false end.

Definition admissions (rs : list RateLimitResult) : nat :=
  length (List.filter allowed rs).

(** ** Resolutions that overlap *)

(** [resolveIssuer] is an async method: it runs up to
    [await this.issuerRepository.findOne(..)], where other calls can run,
    and goes on when the store has answered.  [resolveStart] is the part
    before the await (the clock reading, the cache test, the digest and the
    call of [findOne]); [resolveFinish] is the part after it, which still
    uses the clock reading taken at the start. *)
Inductive Started : Set :=
| Served (ctx : IssuerContext)
| Awaiting (apiKeyHash : string).

Definition resolveStart (sha256 : string -> string) (now : Z)
  (apiKey : string) (s : State) : Started * State :=
  match cacheHit now (issuerCache s !! apiKey) with
  | Some ctx => (Served ctx, s)
  | None =>
      let apiKeyHash := sha256 apiKey in
      (Awaiting apiKeyHash, emit (DbFind apiKeyHash) s)
  end.

Definition resolveFinish (answer : option (list Issuer)) (now : Z)
  (apiKey apiKeyHash : string) (s : State)
  : Outcome (option IssuerContext) * State :=
  match answer with
  | None => (Thrown StoreUnavailable, s)
  | Some rows =>
      match findOne apiKeyHash rows with
      | None => (Returned None, s)
      | Some issuer =>
          let t := default FREE (issuer_tier issuer) in
          (Returned (Some {| ctx_id := issuer_id issuer; ctx_tier := t |}),
           setCache
             (<[apiKey := {| issuerId := issuer_id issuer;
                             cachedTier := t;
                             cacheUntil := now + 5 * 60000 |}]>
                (issuerCache s)) s)
      end
  end.

(** A resolution suspended at the await. *)
Record InFlight : Set := mkInFlight {
  f_now : Z;
  f_key : string;
  f_hash : string;
}.

(** The service together with the resolutions in flight, each under the
    label of its call. *)
Record Server : Type := mkServer {
  srv_state : State;
  inFlight : gmap nat InFlight;
}.

(** What the event loop runs next: the start of a call of [resolveIssuer],
    or the continuation of one in flight, with the answer of the store. *)
Inductive Action : Type :=
| Start (id : nat) (now : Z) (apiKey : string)
| Finish (id : nat) (answer : option (list Issuer)).

(** One action; the result is what the call returns or throws, if the
    action completes it. *)
Definition act (sha256 : string -> string) (a : Action) (sv : Server)
  : option (Outcome (option IssuerContext)) * Server :=
  match a with
  | Start id now apiKey =>
      match resolveStart sha256 now apiKey (srv_state sv) with
      | (Served ctx, s) =>
          (Some (Returned (Some ctx)),
           {| srv_state := s; inFlight := inFlight sv |})
      | (Awaiting h, s) =>
          (None,
           {| srv_state := s;
              inFlight := <[id := {| f_now := now; f_key := apiKey;
                                     f_hash := h |}]> (inFlight sv) |})
      end
  | Finish id answer =>
      match inFlight sv !! id with
      | Some f =>
          let '(r, s) := resolveFinish answer (f_now f) (f_key f) (f_hash f)
                           (srv_state sv) in
          (Some r, {| srv_state := s; inFlight := delete id (inFlight sv) |})
      | None => (None, sv)
      end
  end.

Fixpoint runActions (sha256 : string -> string) (acts : list Action)
  (sv : Server) : list (option (Outcome (option IssuerContext))) * Server :=
  match acts with
  | [] => ([], sv)
  | a :: rest =>
      let '(r, sv1) := act sha256 a sv in
      let '(rs, sv2) := runActions sha256 rest sv1 in
      (r :: rs, sv2)
  end.

(** No resolution of [key] is suspended at the await. *)
Definition noneInFlight (key : string) (sv : Server) : Prop :=
  forall i f, inFlight sv !! i = Some f -> f_key f <> key.

(** An action that is neither of the call labelled [id] nor the start of
    another resolution of [key]. *)
Definition foreignTo (key : string) (id : nat) (a : Action) : Prop :=
  match a with
  | Start i _ k => i <> id /\ k <> key
  | Finish i _ => i <> id
  end.

(** A resolution of [key] that starts, starts before [deadline]; other
    actions are unconstrained. *)
Definition startsBefore (key : string) (deadline : Z) (a : Action) : Prop :=
  match a with
  | Start _ now k => k = key -> now < deadline
  | Finish _ _ => True
  end.

Definition idleServer (s : State) : Server :=
  {| srv_state := s; inFlight := ∅ |}.

(** * Properties *)

(** ** The usage map *)

Section UsageMap.
Implicit Types (u : list (string * UsageBucket)) (b : UsageBucket).

Lemma usageGet_write_same key b u :
  is_Some (usageGet key u) -> usageGet key (usageWrite key b u) = Some b.
Proof.
  induction u as [|[k b0] u IH]; simpl; intros [x Hx]; [discriminate|].
  destruct (String.eqb k key) eqn:E; simpl; rewrite E; [done|].
  apply IH; eauto.
Qed.

Lemma usageGet_write_other key key' b u :
  key <> key' -> usageGet key' (usageWrite key b u) = usageGet key' u.
Proof.
  intros Hne. induction u as [|[k b0] u IH]; simpl; [done|].
  destruct (String.eqb k key) eqn:E; simpl.
  - apply String.eqb_eq in E. subst k.
    destruct (String.eqb key key') eqn:E'; [|done].
    apply String.eqb_eq in E'. contradiction.
  - destruct (String.eqb k key'); [done|apply IH].
Qed.

Lemma usageGet_add_same key b u :
  usageGet key u = None -> usageGet key (usageAdd key b u) = Some b.
Proof.
  unfold usageAdd. induction u as [|[k b0] u IH]; simpl.
  - by rewrite String.eqb_refl.
  - destruct (String.eqb k key); [discriminate|apply IH].
Qed.

Lemma usageGet_add_other key key' b u :
  key <> key' -> usageGet key' (usageAdd key b u) = usageGet key' u.
Proof.
  intros Hne. unfold usageAdd. induction u as [|[k b0] u IH]; simpl.
  - destruct (String.eqb key key') eqn:E; [|done].
    apply String.eqb_eq in E. contradiction.
  - destruct (String.eqb k key'); [done|apply IH].
Qed.

(** After [fetchOrCreate] the key is present, so the writes of [consume]
    land; no other key is touched. *)
Lemma fetchOrCreate_write_same key now t b u :
  usageGet key (usageWrite key b (snd (fetchOrCreate key now t u))) = Some b.
Proof.
  unfold fetchOrCreate. destruct (usageGet key u) eqn:E; simpl.
  - apply usageGet_write_same. rewrite E. eauto.
  - apply usageGet_write_same. rewrite usageGet_add_same; eauto.
Qed.

Lemma fetchOrCreate_write_other key key' now t b u :
  key <> key' ->
  usageGet key' (usageWrite key b (snd (fetchOrCreate key now t u)))
  = usageGet key' u.
Proof.
  intros Hne. rewrite usageGet_write_other by done.
  unfold fetchOrCreate. destruct (usageGet key u); simpl; [done|].
  by apply usageGet_add_other.
Qed.
End UsageMap.

(** ** One call of [consume], case by case *)

Section ConsumeStep.
Variables (cfg : Config) (q : QueueOracle) (now : Z)
          (issuer : string) (t : IssuerTier) (routeKey : string) (s : State).

Let key := bucketKey issuer routeKey.
Let b1 := entered cfg now t key (usage s).
Let lim := tierLimit cfg t.

Lemma consume_result :
  fst (consume cfg q now issuer t routeKey s)
  = if count b1 >=? lim
    then {| allowed := false; limit := lim; remaining := 0;
            resetAt := windowStart b1 + windowMs cfg |}
    else {| allowed := true; limit := lim;
            remaining := Z.max (lim - (count b1 + 1)) 0;
            resetAt := windowStart b1 + windowMs cfg |}.
Proof.
  subst b1 lim key. unfold consume, entered.
  destruct (fetchOrCreate _ now t (usage s)) as [b0 u0]; simpl.
  destruct (count (rollover cfg now t b0) >=? tierLimit cfg t); [done|].
  by destruct (shouldNotify _ _ _).
Qed.

Lemma consume_usage_same :
  usageGet key (usage (snd (consume cfg q now issuer t routeKey s)))
  = Some (settled cfg t b1).
Proof.
  subst b1 lim key. unfold consume, entered, settled.
  pose proof (fun b => fetchOrCreate_write_same
                (bucketKey issuer routeKey) now t b (usage s)) as W.
  destruct (fetchOrCreate _ now t (usage s)) as [b0 u0]; simpl in *.
  destruct (count (rollover cfg now t b0) >=? tierLimit cfg t); simpl.
  - apply W.
  - destruct (shouldNotify _ _ _); simpl.
    + unfold notifyUpgrade, queueAdd; simpl.
      destruct (q _ _); simpl; apply W.
    + apply W.
Qed.

Lemma consume_usage_other key' :
  key <> key' ->
  usageGet key' (usage (snd (consume cfg q now issuer t routeKey s)))
  = usageGet key' (usage s).
Proof.
  subst b1 lim key. intros Hne. unfold consume.
  pose proof (fun b => fetchOrCreate_write_other
                (bucketKey issuer routeKey) key' now t b (usage s) Hne) as W.
  destruct (fetchOrCreate _ now t (usage s)) as [b0 u0]; simpl in *.
  destruct (count (rollover cfg now t b0) >=? tierLimit cfg t); simpl.
  - apply W.
  - destruct (shouldNotify _ _ _); simpl.
    + unfold notifyUpgrade, queueAdd; simpl.
      destruct (q _ _); simpl; apply W.
    + apply W.
Qed.

Lemma consume_trace :
  trace (snd (consume cfg q now issuer t routeKey s))
  = trace s ++ emitted cfg q now issuer t routeKey b1 (trace s).
Proof.
  subst b1 lim key. unfold consume, entered, emitted.
  destruct (fetchOrCreate _ now t (usage s)) as [b0 u0]; simpl.
  destruct (count (rollover cfg now t b0) >=? tierLimit cfg t); simpl; [done|].
  destruct (shouldNotify _ _ _); simpl; [|done].
  unfold notifyUpgrade, queueAdd; simpl.
  destruct (q _ _); simpl; by rewrite <- ?app_assoc.
Qed.

Lemma consume_issuerCache :
  issuerCache (snd (consume cfg q now issuer t routeKey s)) = issuerCache s.
Proof.
  unfold consume.
  destruct (fetchOrCreate _ now t (usage s)) as [b0 u0]; simpl.
  destruct (count (rollover cfg now t b0) >=? tierLimit cfg t); simpl; [done|].
  destruct (shouldNotify _ _ _); simpl; [|done].
  unfold notifyUpgrade, queueAdd; simpl. by destruct (q _ _).
Qed.
End ConsumeStep.

(** ** Event counting and runs *)

Lemma countEvents_app p tr1 tr2 :
  countEvents p (tr1 ++ tr2) = (countEvents p tr1 + countEvents p tr2)%nat.
Proof. unfold countEvents. by rewrite List.filter_app, length_app. Qed.

Lemma step_trace cfg q c s :
  trace (snd (step cfg q c s))
  = trace s ++ emitted cfg q (c_now c) (c_issuer c) (c_tier c) (c_route c)
                 (entered cfg (c_now c) (c_tier c) (callKey c) (usage s))
                 (trace s).
Proof. apply consume_trace. Qed.

(** An upgrade notice emitted for one bucket is not counted for another. *)
Lemma emitted_upgrades_other cfg q now issuer t routeKey b tr key :
  bucketKey issuer routeKey <> key ->
  countEvents (isUpgradeAddFor key) (emitted cfg q now issuer t routeKey b tr)
  = 0%nat.
Proof.
  intros Hne. unfold emitted.
  assert (String.eqb (bucketKey issuer routeKey) key = false) as E
    by by apply String.eqb_neq.
  destruct (count b >=? tierLimit cfg t); [done|].
  destruct (shouldNotify _ _ _); [|done].
  unfold countEvents; simpl. rewrite E. by destruct (q _ _).
Qed.

Lemma emitted_exceeded cfg q now issuer t routeKey b tr :
  countEvents isExceededAdd (emitted cfg q now issuer t routeKey b tr)
  = if count b >=? tierLimit cfg t then 1%nat else 0%nat.
Proof.
  unfold emitted. destruct (count b >=? tierLimit cfg t); [done|].
  destruct (shouldNotify _ _ _); [|done].
  unfold countEvents; simpl. by destruct (q _ _).
Qed.

(** ** One window of a bucket under FREE-tier traffic *)

Section Window.
Variables (cfg : Config) (q : QueueOracle).
Variables (key : string) (t0 : Z).

Let L := freeLimit cfg.
Let m := noticeAt cfg.

Hypothesis L_pos : 1 <= L.

Lemma threshold_lt_limit : upgradeThreshold L < L.
Proof. unfold upgradeThreshold. apply Z.div_lt_upper_bound; lia. Qed.

Lemma m_le_limit : 1 <= m <= L.
Proof. pose proof threshold_lt_limit. subst m. unfold noticeAt. fold L. lia. Qed.

Lemma entered_in_window now t b u :
  usageGet key u = Some b -> now - windowStart b < windowMs cfg ->
  entered cfg now t key u = b.
Proof.
  intros Hb Hw. unfold entered, fetchOrCreate, rollover. rewrite Hb; simpl.
  destruct (now - windowStart b >=? windowMs cfg) eqn:E; [lia|done].
Qed.

Lemma shouldNotify_free b :
  shouldNotify FREE L b
  = negb (notifiedUpgrade b) && (upgradeThreshold L <=? count b).
Proof.
  unfold shouldNotify. rewrite bool_decide_eq_true_2 by done. simpl.
  f_equal. apply Z.geb_leb.
Qed.

(** A consume on the bucket inside the window. *)
Lemma window_step base n c s :
  1 <= n -> WindowAt cfg key t0 base n s -> callKey c = key -> inWindowFree cfg key t0 c ->
  WindowAt cfg key t0 base (n + 1) (snd (step cfg q c s))
  /\ fst (step cfg q c s)
     = (if n <? L
        then {| allowed := true; limit := L; remaining := L - (n + 1);
                resetAt := t0 + windowMs cfg |}
        else {| allowed := false; limit := L; remaining := 0;
                resetAt := t0 + windowMs cfg |}).
Proof.
  unfold WindowAt. fold L m.
  intros Hn (b & Hget & Hws & Hcnt & Hnot & Hev) Hkey Hin.
  destruct (Hin Hkey) as [Ht Hw]. pose proof m_le_limit as Hm.
  unfold step.
  pose proof (consume_result cfg q (c_now c) (c_issuer c) (c_tier c)
                (c_route c) s) as HR.
  pose proof (consume_usage_same cfg q (c_now c) (c_issuer c) (c_tier c)
                (c_route c) s) as HU.
  pose proof (consume_trace cfg q (c_now c) (c_issuer c) (c_tier c)
                (c_route c) s) as HT.
  fold (callKey c) in HR, HU, HT. rewrite Hkey, Ht in HR, HU, HT.
  rewrite (entered_in_window _ _ b) in HR, HU, HT by (done || lia).
  rewrite Ht. simpl tierLimit in *. fold L in HR, HU, HT |- *.
  split.
  - eexists. split; [exact HU|]. rewrite HT, countEvents_app, Hev.
    unfold settled, emitted. simpl tierLimit. fold L.
    rewrite shouldNotify_free. cbn [increment count notifiedUpgrade].
    destruct (count b >=? L) eqn:E.
    + unfold countEvents; simpl.
      rewrite Hnot. destruct (m <=? n) eqn:E1, (m <=? n + 1) eqn:E2;
        repeat split; try done; lia.
    + assert (count b = n) as Hc by lia. rewrite Hnot, Hc.
      destruct (m <=? n) eqn:E1; simpl.
      * assert ((m <=? n + 1) = true) as -> by lia.
        unfold countEvents; simpl. repeat split; try done; lia.
      * destruct (upgradeThreshold L <=? n + 1) eqn:E3; simpl.
        -- assert ((m <=? n + 1) = true) as -> by (subst m; unfold noticeAt; fold L; lia).
           unfold countEvents; simpl.
           rewrite <- Hkey. unfold callKey. rewrite String.eqb_refl.
           repeat split; try done; try lia.
           destruct (q _ _); simpl; lia.
        -- assert ((m <=? n + 1) = false) as -> by (subst m; unfold noticeAt; fold L; lia).
           unfold countEvents; simpl. repeat split; try done; lia.
  - rewrite HR, <- Hws, Hcnt.
    destruct (n <? L) eqn:E.
    + replace (Z.min n L) with n by lia.
      destruct (n >=? L) eqn:E'; [lia|]. f_equal. lia.
    + replace (Z.min n L) with L by lia.
      destruct (L >=? L) eqn:E'; [done|lia].
Qed.

(** A consume on another bucket leaves this one alone. *)
Lemma window_frame base n c s :
  WindowAt cfg key t0 base n s -> callKey c <> key ->
  WindowAt cfg key t0 base n (snd (step cfg q c s)).
Proof.
  intros (b & Hget & Hws & Hcnt & Hnot & Hev) Hkey.
  exists b. repeat split; try done.
  - unfold step. rewrite consume_usage_other; done.
  - rewrite step_trace, countEvents_app, Hev.
    rewrite emitted_upgrades_other by done. lia.
Qed.

Lemma window_run base n cs s :
  1 <= n -> WindowAt cfg key t0 base n s -> Forall (inWindowFree cfg key t0) cs ->
  WindowAt cfg key t0 base (n + hits key cs) (snd (runCalls cfg q cs s)).
Proof.
  intros Hn HW HF. revert n s Hn HW.
  induction HF as [|c cs Hc HF IH]; intros n s Hn HW; simpl.
  - unfold hits; simpl. by rewrite Z.add_0_r.
  - destruct (step cfg q c s) as [r s1] eqn:Es.
    specialize (IH).
    destruct (runCalls cfg q cs s1) as [rs s2] eqn:Er; simpl.
    unfold hits; simpl. unfold onKey at 1.
    destruct (String.eqb (callKey c) key) eqn:E.
    + apply String.eqb_eq in E.
      destruct (window_step base n c s Hn HW E Hc) as [HW1 _].
      rewrite Es in HW1; simpl in HW1.
      specialize (IH (n + 1) s1 ltac:(lia) HW1).
      rewrite Er in IH; simpl in IH.
      simpl length. rewrite Nat2Z.inj_succ.
      unfold hits in IH.
      replace (n + Z.succ _) with (n + 1 + Z.of_nat (length (List.filter (onKey key) cs))) by lia.
      exact IH.
    + apply String.eqb_neq in E.
      pose proof (window_frame base n c s HW E) as HW1.
      rewrite Es in HW1; simpl in HW1.
      specialize (IH n s1 Hn HW1). by rewrite Er in IH.
Qed.
Lemma entered_opens c s :
  opensWindow cfg c s ->
  entered cfg (c_now c) (c_tier c) (callKey c) (usage s)
  = freshBucket (c_now c) (c_tier c).
Proof.
  unfold opensWindow, entered, fetchOrCreate, rollover, freshBucket.
  destruct (usageGet (callKey c) (usage s)) as [b|]; simpl; intros H.
  - destruct (c_now c - windowStart b >=? windowMs cfg) eqn:E; [done|lia].
  - by destruct (c_now c - c_now c >=? windowMs cfg).
Qed.

(** The consume that opens the window. *)
Lemma window_open c s :
  callKey c = key -> c_now c = t0 -> c_tier c = FREE -> opensWindow cfg c s ->
  WindowAt cfg key t0 (countEvents (isUpgradeAddFor key) (trace s)) 1
    (snd (step cfg q c s))
  /\ fst (step cfg q c s)
     = {| allowed := true; limit := L; remaining := L - 1;
          resetAt := t0 + windowMs cfg |}.
Proof.
  unfold WindowAt. fold L m.
  intros Hkey Hnow Ht Hopen. pose proof m_le_limit as Hm.
  unfold step.
  pose proof (consume_result cfg q (c_now c) (c_issuer c) (c_tier c)
                (c_route c) s) as HR.
  pose proof (consume_usage_same cfg q (c_now c) (c_issuer c) (c_tier c)
                (c_route c) s) as HU.
  pose proof (consume_trace cfg q (c_now c) (c_issuer c) (c_tier c)
                (c_route c) s) as HT.
  fold (callKey c) in HR, HU, HT.
  rewrite (entered_opens c s Hopen) in HR, HU, HT.
  rewrite Hkey, Ht, Hnow in *. simpl tierLimit in *. fold L in HR, HU, HT |- *.
  unfold freshBucket in *. cbn [count windowStart] in *.
  destruct (0 >=? L) eqn:E0; [lia|].
  split.
  - eexists. split; [exact HU|]. rewrite HT, countEvents_app.
    unfold settled, emitted. simpl tierLimit. fold L.
    rewrite shouldNotify_free.
    cbn [increment count notifiedUpgrade windowStart]. rewrite E0.
    simpl negb. rewrite andb_true_l.
    destruct (upgradeThreshold L <=? 0 + 1) eqn:E3; simpl.
    + assert ((m <=? 1) = true) as -> by (subst m; unfold noticeAt; fold L; lia).
      unfold countEvents; simpl.
      rewrite <- Hkey. unfold callKey. rewrite String.eqb_refl.
      repeat split; try done; try lia.
      destruct (q _ _); simpl; lia.
    + assert ((m <=? 1) = false) as -> by (subst m; unfold noticeAt; fold L; lia).
      unfold countEvents; simpl. repeat split; try done; lia.
  - rewrite HR. f_equal. lia.
Qed.
End Window.

Lemma runCalls_cons_snd cfg q c cs s :
  snd (runCalls cfg q (c :: cs) s)
  = snd (runCalls cfg q cs (snd (step cfg q c s))).
Proof.
  simpl. destruct (step cfg q c s) as [r s1]; simpl.
  by destruct (runCalls cfg q cs s1).
Qed.

(** The state of a bucket once its window was opened by [c0] and the calls
    [cs] followed, all of them FREE and inside the window on this bucket. *)
Lemma window_after cfg q s c0 cs :
  1 <= freeLimit cfg -> c_tier c0 = FREE -> opensWindow cfg c0 s ->
  Forall (inWindowFree cfg (callKey c0) (c_now c0)) cs ->
  WindowAt cfg (callKey c0) (c_now c0)
    (countEvents (isUpgradeAddFor (callKey c0)) (trace s))
    (1 + hits (callKey c0) cs)
    (snd (runCalls cfg q (c0 :: cs) s)).
Proof.
  intros HL Ht Hopen HF. rewrite runCalls_cons_snd.
  destruct (window_open cfg q (callKey c0) (c_now c0) HL c0 s) as [HW _];
    try done.
  apply window_run; (done || lia).
Qed.

(** ** Exhausted quota *)

(** C1.  A FREE-tier issuer opens a window on a bucket with the consume
    [c0]; the traffic [pre] follows, in which every consume on that bucket
    is FREE and inside the window.  Once the window holds [freeLimit]
    consumes, the bucket's count is [freeLimit], and any further consume [c]
    on the bucket in the window is denied with [remaining = 0], the same
    [limit] and [resetAt], and leaves the count at [freeLimit].  Since [pre]
    is arbitrary this covers the (freeLimit+1)-th consume, the
    (freeLimit+2)-th, and every later one alike. *)
Theorem free_denial_idempotent cfg q s c0 pre c :
  1 <= freeLimit cfg ->
  c_tier c0 = FREE ->
  opensWindow cfg c0 s ->
  Forall (inWindowFree cfg (callKey c0) (c_now c0)) (pre ++ [c]) ->
  callKey c = callKey c0 ->
  freeLimit cfg <= 1 + hits (callKey c0) pre ->
  let s1 := snd (runCalls cfg q (c0 :: pre) s) in
  bucketCount (callKey c0) s1 = Some (freeLimit cfg)
  /\ fst (step cfg q c s1)
     = {| allowed := false; limit := freeLimit cfg; remaining := 0;
          resetAt := c_now c0 + windowMs cfg |}
  /\ bucketCount (callKey c0) (snd (step cfg q c s1)) = Some (freeLimit cfg).
Proof.
  intros HL Ht Hopen HF Hkey Hfull s1.
  apply Forall_app in HF as [Hpre Hc]. apply Forall_inv in Hc.
  pose proof (window_after cfg q s c0 pre HL Ht Hopen Hpre) as HW. fold s1 in HW.
  destruct (window_step cfg q (callKey c0) (c_now c0) HL
              (countEvents (isUpgradeAddFor (callKey c0)) (trace s))
              (1 + hits (callKey c0) pre) c s1) as [HW2 HR]; try done.
  { unfold hits. lia. }
  split; [|split].
  - destruct HW as (b & Hget & _ & Hcnt & _). unfold bucketCount.
    rewrite Hget; simpl. f_equal. lia.
  - rewrite HR. destruct (_ <? _) eqn:E; [lia|done].
  - destruct HW2 as (b & Hget & _ & Hcnt & _). unfold bucketCount.
    rewrite Hget; simpl. f_equal. lia.
Qed.

(** Before the quota is exhausted every consume of the window is allowed:
    the first [freeLimit] consumes are exactly the allowed ones. *)
Lemma free_quota_allowed cfg q s c0 pre c :
  1 <= freeLimit cfg ->
  c_tier c0 = FREE ->
  opensWindow cfg c0 s ->
  Forall (inWindowFree cfg (callKey c0) (c_now c0)) (pre ++ [c]) ->
  callKey c = callKey c0 ->
  1 + hits (callKey c0) pre < freeLimit cfg ->
  fst (step cfg q c (snd (runCalls cfg q (c0 :: pre) s)))
  = {| allowed := true; limit := freeLimit cfg;
       remaining := freeLimit cfg - (2 + hits (callKey c0) pre);
       resetAt := c_now c0 + windowMs cfg |}.
Proof.
  intros HL Ht Hopen HF Hkey Hroom.
  apply Forall_app in HF as [Hpre Hc]. apply Forall_inv in Hc.
  pose proof (window_after cfg q s c0 pre HL Ht Hopen Hpre) as HW.
  destruct (window_step cfg q (callKey c0) (c_now c0) HL
              (countEvents (isUpgradeAddFor (callKey c0)) (trace s))
              (1 + hits (callKey c0) pre) c
              (snd (runCalls cfg q (c0 :: pre) s))) as [_ HR]; try done.
  { unfold hits. lia. }
  rewrite HR. destruct (_ <? _) eqn:E; [|lia]. f_equal. lia.
Qed.

Lemma free_denial_idempotent_witness :
  let cfg := configure None (Some 2) None in
  let c0 := mkCall 0 "issuer-1" FREE "/certificates" in
  let s1 := snd (runCalls cfg acceptAll
                   [c0; mkCall 10 "issuer-1" FREE "/certificates"] initState) in
  bucketCount "issuer-1:/certificates" s1 = Some 2
  /\ fst (step cfg acceptAll (mkCall 20 "issuer-1" FREE "/certificates") s1)
     = {| allowed := false; limit := 2; remaining := 0; resetAt := 60000 |}
  /\ bucketCount "issuer-1:/certificates"
       (snd (step cfg acceptAll (mkCall 20 "issuer-1" FREE "/certificates") s1))
     = Some 2.
Proof.
  apply (free_denial_idempotent (configure None (Some 2) None) acceptAll
           initState (mkCall 0 "issuer-1" FREE "/certificates")
           [mkCall 10 "issuer-1" FREE "/certificates"]
           (mkCall 20 "issuer-1" FREE "/certificates")).
  - vm_compute. discriminate.
  - reflexivity.
  - exact I.
  - repeat constructor; vm_compute; reflexivity.
  - reflexivity.
  - vm_compute. discriminate.
Defined.

(** ** Window rollover *)

Lemma settled_tier cfg t b : tier (settled cfg t b) = tier b.
Proof.
  unfold settled. destruct (count b >=? tierLimit cfg t); [done|].
  by destruct (shouldNotify _ _ _).
Qed.

Lemma settled_windowStart cfg t b : windowStart (settled cfg t b) = windowStart b.
Proof.
  unfold settled. destruct (count b >=? tierLimit cfg t); [done|].
  by destruct (shouldNotify _ _ _).
Qed.

Lemma settled_count cfg t b :
  count (settled cfg t b)
  = if count b >=? tierLimit cfg t then count b else count b + 1.
Proof.
  unfold settled. destruct (count b >=? tierLimit cfg t); [done|].
  by destruct (shouldNotify _ _ _).
Qed.

Lemma entered_existing cfg now t key u b :
  usageGet key u = Some b -> entered cfg now t key u = rollover cfg now t b.
Proof. intros Hb. unfold entered, fetchOrCreate. by rewrite Hb. Qed.

(** C4.  When a consume finds the bucket's window over
    ([now - windowStart >= windowMs]), the rollover check resets the bucket
    to [count = 0], [notifiedUpgrade = false], [windowStart = now] (and the
    caller's tier), and that reset bucket is the one the limit check sees.
    With a limit of at least 1 the consume is therefore allowed, the bucket
    is left with [count = 1] and [windowStart = now], and the returned
    [resetAt] is the new [windowStart] plus one window length. *)
Theorem consume_after_expiry cfg q now issuer t routeKey s b :
  usageGet (bucketKey issuer routeKey) (usage s) = Some b ->
  now - windowStart b >= windowMs cfg ->
  1 <= tierLimit cfg t ->
  let reset := {| windowStart := now; count := 0; tier := t;
                  notifiedUpgrade := false |} in
  let r := fst (consume cfg q now issuer t routeKey s) in
  let s' := snd (consume cfg q now issuer t routeKey s) in
  rollover cfg now t b = reset
  /\ entered cfg now t (bucketKey issuer routeKey) (usage s) = reset
  /\ allowed r = true
  /\ limit r = tierLimit cfg t
  /\ remaining r = tierLimit cfg t - 1
  /\ resetAt r = now + windowMs cfg
  /\ exists b', usageGet (bucketKey issuer routeKey) (usage s') = Some b'
                /\ count b' = 1 /\ windowStart b' = now /\ tier b' = t.
Proof.
  intros Hb Hexp Hlim reset r s'.
  assert (rollover cfg now t b = reset) as Hroll.
  { unfold rollover. destruct (now - windowStart b >=? windowMs cfg) eqn:E;
      [done|lia]. }
  assert (entered cfg now t (bucketKey issuer routeKey) (usage s) = reset)
    as Hent by (by rewrite (entered_existing _ _ _ _ _ b)).
  subst r s'. rewrite consume_result, consume_usage_same, Hent.
  subst reset. cbn [count windowStart].
  destruct (0 >=? tierLimit cfg t) eqn:E; [lia|]. simpl.
  repeat split; try done; try lia.
  eexists. split; [done|].
  rewrite settled_count, settled_windowStart, settled_tier. simpl.
  rewrite E. done.
Qed.

Lemma consume_after_expiry_witness :
  let s := snd (runCalls defaultConfig acceptAll
                  (callsAt "issuer-1" FREE "/certificates" 0 3) initState) in
  let reset := {| windowStart := 60000; count := 0; tier := FREE;
                  notifiedUpgrade := false |} in
  let r := fst (consume defaultConfig acceptAll 60000 "issuer-1" FREE
                  "/certificates" s) in
  let s' := snd (consume defaultConfig acceptAll 60000 "issuer-1" FREE
                   "/certificates" s) in
  rollover defaultConfig 60000 FREE
    {| windowStart := 0; count := 3; tier := FREE; notifiedUpgrade := false |}
  = reset
  /\ entered defaultConfig 60000 FREE (bucketKey "issuer-1" "/certificates")
       (usage s) = reset
  /\ allowed r = true
  /\ limit r = tierLimit defaultConfig FREE
  /\ remaining r = tierLimit defaultConfig FREE - 1
  /\ resetAt r = 60000 + windowMs defaultConfig
  /\ exists b', usageGet (bucketKey "issuer-1" "/certificates") (usage s')
                = Some b'
                /\ count b' = 1 /\ windowStart b' = 60000 /\ tier b' = FREE.
Proof.
  intros s.
  apply (consume_after_expiry defaultConfig acceptAll 60000 "issuer-1" FREE
           "/certificates" s
           {| windowStart := 0; count := 3; tier := FREE;
              notifiedUpgrade := false |}).
  - reflexivity.
  - vm_compute. discriminate.
  - vm_compute. discriminate.
Defined.

(** ** Which tier sets the limit *)

(** A bucket opened at FREE tier and filled to the FREE limit, then consumed
    at PAID tier inside the same window: the consume is allowed under the
    PAID limit although the bucket still stores FREE, whose limit is
    reached.  The limit enforced mid-window is the caller's. *)
Lemma caller_tier_sets_limit_counterexample :
  let s := snd (runCalls defaultConfig acceptAll
                  (callsAt "issuer-1" FREE "/certificates" 0 60) initState) in
  let r := fst (consume defaultConfig acceptAll 1000 "issuer-1" PAID
                  "/certificates" s) in
  let s' := snd (consume defaultConfig acceptAll 1000 "issuer-1" PAID
                   "/certificates" s) in
  usageGet "issuer-1:/certificates" (usage s)
  = Some {| windowStart := 0; count := 60; tier := FREE;
            notifiedUpgrade := true |}
  /\ 1000 - 0 < windowMs defaultConfig
  /\ tierLimit defaultConfig FREE = 60
  /\ allowed r = true
  /\ limit r = 600
  /\ limit r <> tierLimit defaultConfig FREE
  /\ usageGet "issuer-1:/certificates" (usage s')
     = Some {| windowStart := 0; count := 61; tier := FREE;
               notifiedUpgrade := true |}.
Proof. vm_compute. repeat split; discriminate. Qed.

(** C2, amended.  The limit that [consume] enforces is the one of the tier
    passed in on the current call, whatever tier the bucket stores: the
    result carries that limit and the consume is denied exactly when the
    bucket's count (after the rollover check) has reached it.  The tier
    stored in the bucket is only written: it keeps its value while the
    window lasts and is refreshed from the caller when the window is
    reset. *)
Theorem limit_follows_caller_tier cfg q now issuer t routeKey s b :
  usageGet (bucketKey issuer routeKey) (usage s) = Some b ->
  let r := fst (consume cfg q now issuer t routeKey s) in
  let s' := snd (consume cfg q now issuer t routeKey s) in
  let expired := now - windowStart b >=? windowMs cfg in
  limit r = tierLimit cfg t
  /\ allowed r = ((if expired then 0 else count b) <? tierLimit cfg t)
  /\ (tier <$> usageGet (bucketKey issuer routeKey) (usage s'))
     = Some (if expired then t else tier b).
Proof.
  intros Hb r s' expired. subst r s' expired.
  rewrite consume_result, consume_usage_same, (entered_existing _ _ _ _ _ b Hb).
  simpl. rewrite settled_tier. unfold rollover.
  destruct (now - windowStart b >=? windowMs cfg); cbn [count tier].
  - destruct (0 >=? tierLimit cfg t) eqn:E; simpl;
      repeat split; try done; symmetry; lia.
  - destruct (count b >=? tierLimit cfg t) eqn:E; simpl;
      repeat split; try done; symmetry; lia.
Qed.

Lemma limit_follows_caller_tier_witness :
  let s := snd (runCalls defaultConfig acceptAll
                  (callsAt "issuer-1" FREE "/certificates" 0 60) initState) in
  let b := {| windowStart := 0; count := 60; tier := FREE;
              notifiedUpgrade := true |} in
  let r := fst (consume defaultConfig acceptAll 1000 "issuer-1" PAID
                  "/certificates" s) in
  let s' := snd (consume defaultConfig acceptAll 1000 "issuer-1" PAID
                   "/certificates" s) in
  let expired := 1000 - windowStart b >=? windowMs defaultConfig in
  limit r = tierLimit defaultConfig PAID
  /\ allowed r = ((if expired then 0 else count b) <? tierLimit defaultConfig PAID)
  /\ (tier <$> usageGet (bucketKey "issuer-1" "/certificates") (usage s'))
     = Some (if expired then PAID else tier b).
Proof.
  intros s b.
  apply (limit_follows_caller_tier defaultConfig acceptAll 1000 "issuer-1" PAID
           "/certificates" s b).
  vm_compute. reflexivity.
Defined.

(** ** The upgrade notice *)

(** A bucket opened at PAID tier, consumed 47 times, then once at FREE tier
    inside the same window: the bucket stores PAID, and the notice is
    dispatched for it. *)
Lemma paid_bucket_notice_counterexample :
  let s := snd (runCalls defaultConfig acceptAll
                  (callsAt "issuer-1" PAID "/certificates" 0 47) initState) in
  let s' := snd (consume defaultConfig acceptAll 1000 "issuer-1" FREE
                   "/certificates" s) in
  usageGet "issuer-1:/certificates" (usage s)
  = Some {| windowStart := 0; count := 47; tier := PAID;
            notifiedUpgrade := false |}
  /\ 1000 - 0 < windowMs defaultConfig
  /\ countEvents (isUpgradeAddFor "issuer-1:/certificates") (trace s) = 0%nat
  /\ countEvents (isUpgradeAddFor "issuer-1:/certificates") (trace s') = 1%nat
  /\ usageGet "issuer-1:/certificates" (usage s')
     = Some {| windowStart := 0; count := 48; tier := PAID;
               notifiedUpgrade := true |}.
Proof. vm_compute. repeat split; discriminate. Qed.

Lemma consume_paid_no_notice cfg q now issuer routeKey s key :
  countEvents (isUpgradeAddFor key)
    (trace (snd (consume cfg q now issuer PAID routeKey s)))
  = countEvents (isUpgradeAddFor key) (trace s).
Proof.
  rewrite consume_trace, countEvents_app. unfold emitted.
  destruct (count _ >=? _); [unfold countEvents; simpl; lia|].
  unfold shouldNotify. rewrite bool_decide_eq_false_2 by done. simpl.
  unfold countEvents; simpl; lia.
Qed.

(** C3, amended.  The upgrade notice follows the tier passed to [consume],
    not the tier stored in the bucket.  In a window that the consume [c0]
    opens at tier FREE and in which every consume on the bucket is made at
    tier FREE, after [n] consumes the number of notices dispatched for the
    bucket since the window opened is 1 if [n] has reached
    [max 1 (floor (limit * 0.8))] and 0 otherwise, and [notifiedUpgrade]
    says which: the notice goes out at most once, on the consume whose
    increment first brings [count] to the threshold, and on no later
    consume of the window, allowed or denied.  A consume made at tier PAID
    never dispatches it, in any state. *)
Theorem upgrade_notice_once cfg q s c0 cs :
  1 <= freeLimit cfg ->
  c_tier c0 = FREE ->
  opensWindow cfg c0 s ->
  Forall (inWindowFree cfg (callKey c0) (c_now c0)) cs ->
  let key := callKey c0 in
  let n := 1 + hits key cs in
  let s' := snd (runCalls cfg q (c0 :: cs) s) in
  countEvents (isUpgradeAddFor key) (trace s')
  = (countEvents (isUpgradeAddFor key) (trace s)
     + if (noticeAt cfg <=? n)%Z then 1 else 0)%nat
  /\ (notifiedUpgrade <$> usageGet key (usage s')) = Some (noticeAt cfg <=? n)
  /\ bucketCount key s' = Some (Z.min n (freeLimit cfg))
  /\ forall q' now issuer routeKey s2 key2,
       countEvents (isUpgradeAddFor key2)
         (trace (snd (consume cfg q' now issuer PAID routeKey s2)))
       = countEvents (isUpgradeAddFor key2) (trace s2).
Proof.
  intros HL Ht Hopen HF key n s'.
  destruct (window_after cfg q s c0 cs HL Ht Hopen HF)
    as (b & Hget & _ & Hcnt & Hnot & Hev).
  fold key n s' in Hget, Hcnt, Hnot, Hev.
  repeat split.
  - exact Hev.
  - by rewrite Hget; simpl; rewrite Hnot.
  - unfold bucketCount. by rewrite Hget; simpl; rewrite Hcnt.
  - intros. apply consume_paid_no_notice.
Qed.

Lemma upgrade_notice_once_witness :
  let cfg := defaultConfig in
  let c0 := mkCall 0 "issuer-1" FREE "/certificates" in
  let cs := callsAt "issuer-1" FREE "/certificates" 1 60 in
  let key := callKey c0 in
  let n := 1 + hits key cs in
  let s' := snd (runCalls cfg rejectAll (c0 :: cs) initState) in
  countEvents (isUpgradeAddFor key) (trace s')
  = (countEvents (isUpgradeAddFor key) (trace initState)
     + if (noticeAt cfg <=? n)%Z then 1 else 0)%nat
  /\ (notifiedUpgrade <$> usageGet key (usage s')) = Some (noticeAt cfg <=? n)
  /\ bucketCount key s' = Some (Z.min n (freeLimit cfg))
  /\ forall q' now issuer routeKey s2 key2,
       countEvents (isUpgradeAddFor key2)
         (trace (snd (consume cfg q' now issuer PAID routeKey s2)))
       = countEvents (isUpgradeAddFor key2) (trace s2).
Proof.
  apply (upgrade_notice_once defaultConfig rejectAll initState
           (mkCall 0 "issuer-1" FREE "/certificates")
           (callsAt "issuer-1" FREE "/certificates" 1 60)).
  - vm_compute. discriminate.
  - reflexivity.
  - exact I.
  - apply List.Forall_forall. intros c Hc _. unfold callsAt in Hc.
    apply List.in_map_iff in Hc as (i & <- & Hi). apply List.in_seq in Hi.
    simpl. split; [reflexivity|]. change (windowMs defaultConfig) with 60000. lia.
Defined.

(** ** The queue and the decision *)

(** The usage map [consume] leaves behind, whole. *)
Lemma consume_usage cfg q now issuer t routeKey s :
  usage (snd (consume cfg q now issuer t routeKey s))
  = usageWrite (bucketKey issuer routeKey)
      (settled cfg t (entered cfg now t (bucketKey issuer routeKey) (usage s)))
      (snd (fetchOrCreate (bucketKey issuer routeKey) now t (usage s))).
Proof.
  unfold consume, entered, settled.
  destruct (fetchOrCreate _ now t (usage s)) as [b0 u0]; simpl.
  destruct (count (rollover cfg now t b0) >=? tierLimit cfg t); simpl; [done|].
  destruct (shouldNotify _ _ _); simpl; [|done].
  unfold notifyUpgrade, queueAdd; simpl. by destruct (q _ _).
Qed.

(** C8.  The result of [consume] and the usage map it leaves behind do not
    depend on the queue: two runs of [consume] with the same arguments, from
    states with the same usage map, under any two behaviours [q1] and [q2]
    of the queue (accepting or failing each [add] as they please, after
    whatever histories), return the same [RateLimitResult] and leave the
    same buckets. *)
Theorem consume_independent_of_queue cfg q1 q2 now issuer t routeKey s1 s2 :
  usage s1 = usage s2 ->
  fst (consume cfg q1 now issuer t routeKey s1)
  = fst (consume cfg q2 now issuer t routeKey s2)
  /\ usage (snd (consume cfg q1 now issuer t routeKey s1))
     = usage (snd (consume cfg q2 now issuer t routeKey s2)).
Proof.
  intros Hu. rewrite !consume_result, !consume_usage, Hu. done.
Qed.

Lemma consume_independent_of_queue_witness :
  let s := snd (runCalls defaultConfig acceptAll
                  (callsAt "issuer-1" FREE "/certificates" 0 47) initState) in
  let s2 := emit (MetricRecorded "/other") s in
  fst (consume defaultConfig acceptAll 100 "issuer-1" FREE "/certificates" s)
  = fst (consume defaultConfig rejectAll 100 "issuer-1" FREE "/certificates" s2)
  /\ usage (snd (consume defaultConfig acceptAll 100 "issuer-1" FREE
                   "/certificates" s))
     = usage (snd (consume defaultConfig rejectAll 100 "issuer-1" FREE
                     "/certificates" s2)).
Proof.
  intros s s2.
  apply (consume_independent_of_queue defaultConfig acceptAll rejectAll 100
           "issuer-1" FREE "/certificates" s s2).
  reflexivity.
Defined.

(** The queue does show in the trace: the log line of [notifyUpgrade] is
    written only when the queue accepted the job. *)
Example queue_outcome_only_in_trace :
  let s := snd (runCalls defaultConfig acceptAll
                  (callsAt "issuer-1" FREE "/certificates" 0 47) initState) in
  trace (snd (consume defaultConfig acceptAll 100 "issuer-1" FREE
                "/certificates" s))
  = trace s ++ [QueueAdd (UPGRADE_NOTIFICATION "issuer-1" "/certificates" 60 48) true;
                LogReached "issuer-1" 48 60 "/certificates";
                MetricRecorded "/certificates"]
  /\ trace (snd (consume defaultConfig rejectAll 100 "issuer-1" FREE
                   "/certificates" s))
     = trace s ++ [QueueAdd (UPGRADE_NOTIFICATION "issuer-1" "/certificates" 60 48) false;
                   MetricRecorded "/certificates"].
Proof. vm_compute. done. Qed.

(** ** Exceeded jobs *)

Lemma step_exceeded cfg q c s :
  countEvents isExceededAdd (trace (snd (step cfg q c s)))
  = (countEvents isExceededAdd (trace s)
     + if allowed (fst (step cfg q c s)) then 0 else 1)%nat.
Proof.
  rewrite step_trace, countEvents_app, emitted_exceeded.
  unfold step. rewrite consume_result. fold (callKey c).
  by destruct (count _ >=? _).
Qed.

(** C10.  Every denied consume calls [rateLimitQueue.add] with one new
    [rate-limit-exceeded] job, carrying the caller's issuer, tier and route,
    the time, the limit and the bucket's count; nothing deduplicates these
    within a window.  Over any sequence of consumes the number of exceeded
    jobs added equals the number of denied results, so a window with [k]
    denied requests produces [k] exceeded jobs. *)
Theorem denial_enqueues_exceeded cfg q :
  (forall now issuer t routeKey s,
     allowed (fst (consume cfg q now issuer t routeKey s)) = false ->
     exists cnt,
       let j := EXCEEDED issuer t routeKey now (tierLimit cfg t) cnt in
       bucketCount (bucketKey issuer routeKey)
         (snd (consume cfg q now issuer t routeKey s)) = Some cnt
       /\ trace (snd (consume cfg q now issuer t routeKey s))
          = trace s ++ [QueueAdd j (q j (trace s))])
  /\ (forall cs s,
        countEvents isExceededAdd (trace (snd (runCalls cfg q cs s)))
        = (countEvents isExceededAdd (trace s)
           + denials (fst (runCalls cfg q cs s)))%nat).
Proof.
  split.
  - intros now issuer t routeKey s Hden.
    rewrite consume_result in Hden.
    exists (count (entered cfg now t (bucketKey issuer routeKey) (usage s))).
    unfold bucketCount.
    rewrite consume_usage_same, consume_trace. unfold settled, emitted.
    destruct (count _ >=? _); [done|discriminate].
  - induction cs as [|c cs IH]; intros s; simpl.
    + unfold denials; simpl. lia.
    + pose proof (step_exceeded cfg q c s) as Hs.
      destruct (step cfg q c s) as [r s1]; simpl in Hs.
      specialize (IH s1).
      destruct (runCalls cfg q cs s1) as [rs s2]; simpl in *.
      rewrite IH, Hs. unfold denials; simpl.
      destruct (allowed r); simpl; lia.
Qed.

Lemma denial_enqueues_exceeded_witness :
  let cfg := configure None (Some 1) None in
  let s := snd (consume cfg rejectAll 0 "issuer-1" FREE "/certificates"
                  initState) in
  exists cnt,
    let j := EXCEEDED "issuer-1" FREE "/certificates" 5 (tierLimit cfg FREE) cnt in
    bucketCount (bucketKey "issuer-1" "/certificates")
      (snd (consume cfg rejectAll 5 "issuer-1" FREE "/certificates" s))
    = Some cnt
    /\ trace (snd (consume cfg rejectAll 5 "issuer-1" FREE "/certificates" s))
       = trace s ++ [QueueAdd j (rejectAll j (trace s))].
Proof.
  intros cfg s.
  apply (proj1 (denial_enqueues_exceeded cfg rejectAll) 5 "issuer-1" FREE
           "/certificates" s).
  vm_compute. reflexivity.
Defined.

(** ** The usage summary *)

Lemma summarize_live cfg now u :
  summarize cfg now u
  = List.map (fun e => usageRow cfg (fst e) (snd e)) (List.filter (live cfg now) u).
Proof.
  induction u as [|[k b] u IH]; simpl; [done|]. unfold live at 1; simpl.
  destruct (now - windowStart b >=? windowMs cfg); simpl; by rewrite IH.
Qed.

Lemma splitOn_nonempty sep s : splitOn sep s <> [].
Proof.
  destruct s as [|c s]; simpl; [done|].
  destruct (Ascii.eqb c sep); [done|]. by destruct (splitOn sep s).
Qed.

Lemma splitOn_head s : hd EmptyString (splitOn ":" s) = untilColon s.
Proof.
  induction s as [|c s IH]; simpl; [done|].
  destruct (Ascii.eqb c ":"); [done|].
  destruct (splitOn ":" s) eqn:E; simpl in *; by rewrite <- IH.
Qed.

Lemma untilColon_id s : hasColon s = false -> untilColon s = s.
Proof.
  induction s as [|c s IH]; simpl; [done|].
  destruct (Ascii.eqb c ":"); simpl; [done|]. intros H. by rewrite IH.
Qed.

Lemma splitOn_bucketKey issuer routeKey :
  hasColon issuer = false ->
  splitOn ":" (bucketKey issuer routeKey) = issuer :: splitOn ":" routeKey.
Proof.
  unfold bucketKey. induction issuer as [|c i IH]; simpl; [done|].
  destruct (Ascii.eqb c ":"); simpl; [done|]. intros H. by rewrite IH.
Qed.

(** What a row of the summary holds for the bucket of a colon-free issuer
    id: the issuer id is recovered, and so are tier, count, limit and reset
    time; the route is the route key cut at its first colon. *)
Lemma usageRow_bucketKey cfg issuer routeKey b :
  hasColon issuer = false ->
  usageRow cfg (bucketKey issuer routeKey) b
  = {| row_issuerId := issuer;
       row_route := Some (untilColon routeKey);
       row_tier := tier b;
       row_count := count b;
       row_limit := tierLimit cfg (tier b);
       row_resetAt := windowStart b + windowMs cfg |}.
Proof.
  intros H. unfold usageRow. rewrite splitOn_bucketKey by done. simpl.
  f_equal. rewrite <- splitOn_head.
  pose proof (splitOn_nonempty ":" routeKey).
  by destruct (splitOn ":" routeKey).
Qed.

(** For a colon-free issuer id and a colon-free route key the row gives
    back both. *)
Lemma usageRow_colon_free cfg issuer routeKey b :
  hasColon issuer = false -> hasColon routeKey = false ->
  row_issuerId (usageRow cfg (bucketKey issuer routeKey) b) = issuer
  /\ row_route (usageRow cfg (bucketKey issuer routeKey) b) = Some routeKey.
Proof.
  intros Hi Hr. rewrite usageRow_bucketKey by done. simpl.
  by rewrite untilColon_id.
Qed.

(** C9.  The route of a summary row is not the route key the bucket was
    created under when that key holds a colon: [key.split(':')] cuts it at
    its first colon.  For the route pattern [/certificates/:id] the bucket
    is created under that route key and its row, right in its issuer id,
    tier, count, limit and reset time, reports the route
    [/certificates/]. *)
Theorem usage_summary_cuts_route :
  let s := snd (consume defaultConfig acceptAll 0 "issuer-1" FREE
                  "/certificates/:id" initState) in
  usage s = [(bucketKey "issuer-1" "/certificates/:id",
              {| windowStart := 0; count := 1; tier := FREE;
                 notifiedUpgrade := false |})]
  /\ getUsageSummary defaultConfig 5 s
     = [{| row_issuerId := "issuer-1";
           row_route := Some "/certificates/";
           row_tier := FREE; row_count := 1; row_limit := 60;
           row_resetAt := 60000 |}]
  /\ List.map row_route (getUsageSummary defaultConfig 5 s)
     <> [Some "/certificates/:id"].
Proof. vm_compute. repeat split; discriminate. Qed.

(** ** The directory cache *)

Section Resolve.
Variable sha256 : string -> string.

Lemma findOne_active h rows i :
  findOne h rows = Some i ->
  In i rows /\ isActive i = true /\ apiKeyHash i = Some h.
Proof.
  unfold findOne. intros H. apply List.find_some in H as [Hin Hp].
  apply andb_true_iff in Hp as [Hh Ha].
  apply bool_decide_eq_true in Hh. done.
Qed.

Lemma resolve_hit db now key s e :
  issuerCache s !! key = Some e -> now < cacheUntil e ->
  resolveIssuer sha256 db now key s
  = (Returned (Some {| ctx_id := issuerId e; ctx_tier := cachedTier e |}), s).
Proof.
  intros He Hlive. unfold resolveIssuer. rewrite He; simpl.
  destruct (cacheUntil e >? now) eqn:E; [done|lia].
Qed.

Lemma resolve_miss rows now key s i :
  cacheHit now (issuerCache s !! key) = None ->
  findOne (sha256 key) rows = Some i ->
  resolveIssuer sha256 (Some rows) now key s
  = (Returned (Some (contextOf i)),
     {| usage := usage s;
        issuerCache :=
          <[key := {| issuerId := issuer_id i;
                      cachedTier := default FREE (issuer_tier i);
                      cacheUntil := now + 5 * 60000 |}]> (issuerCache s);
        trace := trace s ++ [DbFind (sha256 key)] |}).
Proof. intros Hmiss Hfind. unfold resolveIssuer. by rewrite Hmiss, Hfind. Qed.

Lemma resolve_expired db now key s e :
  issuerCache s !! key = Some e -> cacheUntil e <= now ->
  trace (snd (resolveIssuer sha256 db now key s))
  = trace s ++ [DbFind (sha256 key)].
Proof.
  intros He Hexp. unfold resolveIssuer. rewrite He; simpl.
  destruct (cacheUntil e >? now) eqn:E; [lia|].
  destruct db as [rows|]; [|done].
  by destruct (findOne (sha256 key) rows).
Qed.

Lemma resolve_cache_other db now key key' s :
  key' <> key ->
  issuerCache (snd (resolveIssuer sha256 db now key' s)) !! key
  = issuerCache s !! key.
Proof.
  intros Hne. unfold resolveIssuer.
  destruct (cacheHit now (issuerCache s !! key')); [done|].
  destruct db as [rows|]; [|done].
  destruct (findOne (sha256 key') rows); [|done].
  simpl. by rewrite lookup_insert_ne.
Qed.

(** An entry stays as it is while every lookup of its key comes before
    its expiry. *)
Lemma cache_entry_kept key e ls s :
  issuerCache s !! key = Some e ->
  Forall (beforeExpiry key (cacheUntil e)) ls ->
  issuerCache (snd (runLookups sha256 ls s)) !! key = Some e.
Proof.
  intros He HF. revert s He.
  induction HF as [|l ls Hl HF IH]; intros s He; simpl; [done|].
  destruct (resolveStep sha256 l s) as [r s1] eqn:Es.
  destruct (runLookups sha256 ls s1) as [rs s2] eqn:Er; simpl.
  specialize (IH s1). rewrite Er in IH; simpl in IH. apply IH.
  replace s1 with (snd (resolveStep sha256 l s)) by by rewrite Es.
  unfold resolveStep.
  destruct (decide (l_key l = key)) as [Hk|Hk].
  - rewrite Hk, (resolve_hit _ _ _ _ e); [done|done|]. by apply Hl.
  - by rewrite resolve_cache_other.
Qed.

Lemma runLookups_cons_snd l ls s :
  snd (runLookups sha256 (l :: ls) s)
  = snd (runLookups sha256 ls (snd (resolveStep sha256 l s))).
Proof.
  simpl. destruct (resolveStep sha256 l s) as [r s1]; simpl.
  by destruct (runLookups sha256 ls s1).
Qed.

Lemma cacheJustified_step hist l s :
  CacheJustified sha256 hist s ->
  CacheJustified sha256 (hist ++ [l]) (snd (resolveStep sha256 l s)).
Proof.
  intros HJ k e. unfold resolveStep, resolveIssuer.
  assert (forall s', issuerCache s' = issuerCache s ->
            issuerCache s' !! k = Some e ->
            exists l', In l' (hist ++ [l])
              /\ servedBy sha256 l' k
                   {| ctx_id := issuerId e; ctx_tier := cachedTier e |}
              /\ cacheUntil e = l_now l' + 5 * 60000) as Hold.
  { intros s' -> He. destruct (HJ k e He) as (l' & Hin & Hs & Hu).
    exists l'. split; [apply in_or_app; by left|done]. }
  destruct (cacheHit (l_now l) (issuerCache s !! l_key l)); [by apply Hold|].
  destruct (l_db l) as [rows|] eqn:Hdb; [|by apply Hold].
  destruct (findOne (sha256 (l_key l)) rows) as [i|] eqn:Hf; [|by apply Hold].
  simpl. destruct (decide (l_key l = k)) as [<-|Hne].
  - rewrite lookup_insert_eq. intros [= <-]. simpl.
    apply findOne_active in Hf as (Hin & Ha & Hh).
    exists l. split; [apply in_or_app; right; by left|].
    split; [|done]. split; [done|]. by exists rows, i.
  - rewrite lookup_insert_ne by done. by apply Hold.
Qed.

Lemma cacheJustified_run hist ls s :
  CacheJustified sha256 hist s ->
  CacheJustified sha256 (hist ++ ls) (snd (runLookups sha256 ls s)).
Proof.
  revert hist s. induction ls as [|l ls IH]; intros hist s HJ.
  - by rewrite app_nil_r.
  - rewrite runLookups_cons_snd.
    replace (hist ++ l :: ls) with ((hist ++ [l]) ++ ls)
      by by rewrite <- app_assoc.
    apply IH. by apply cacheJustified_step.
Qed.

(** C6, amended.  In every state the cache reaches from the empty cache by
    a history of resolutions, a resolution that returns an identity either
    performs the durable lookup and finds, in the store at that time, an
    active issuer whose stored hash is the hash of the presented key, or
    is served from the cache: then an earlier resolution of the same key,
    less than five minutes before, found that issuer active in the store
    as it was then.  The store at the time of the later call is not
    consulted. *)
Theorem resolved_issuer_was_active hist l ctx :
  let s := snd (runLookups sha256 hist initState) in
  fst (resolveStep sha256 l s) = Returned (Some ctx) ->
  servedBy sha256 l (l_key l) ctx
  \/ exists l', In l' hist
       /\ servedBy sha256 l' (l_key l) ctx
       /\ l_now l < l_now l' + 5 * 60000.
Proof.
  intros s. 
  assert (CacheJustified sha256 hist s) as HJ.
  { apply (cacheJustified_run [] hist initState). intros k e He.
    simpl in He. by rewrite lookup_empty in He. }
  unfold resolveStep, resolveIssuer, cacheHit.
  destruct (issuerCache s !! l_key l) as [e|] eqn:He.
  - destruct (cacheUntil e >? l_now l) eqn:Elive.
    + simpl. intros [= <-]. right.
      destruct (HJ _ _ He) as (l' & Hin & Hs & Hu).
      exists l'. split; [done|]. split; [done|]. lia.
    + destruct (l_db l) as [rows|] eqn:Hdb; [|done].
      destruct (findOne _ rows) as [i|] eqn:Hf; [|done].
      simpl. intros [= <-]. left.
      apply findOne_active in Hf as (Hin & Ha & Hh).
      split; [done|]. by exists rows, i.
  - destruct (l_db l) as [rows|] eqn:Hdb; [|done].
    destruct (findOne _ rows) as [i|] eqn:Hf; [|done].
    simpl. intros [= <-]. left.
    apply findOne_active in Hf as (Hin & Ha & Hh).
    split; [done|]. by exists rows, i.
Qed.
End Resolve.

(** ** Resolutions that overlap at the await *)

Section Overlap.
Variable sha256 : string -> string.

(** A call of [resolveIssuer] that nothing interrupts is its start followed
    by its continuation. *)
Lemma resolveIssuer_split db now key s :
  resolveIssuer sha256 db now key s
  = match resolveStart sha256 now key s with
    | (Served ctx, s') => (Returned (Some ctx), s')
    | (Awaiting h, s') => resolveFinish db now key h s'
    end.
Proof.
  unfold resolveIssuer, resolveStart, resolveFinish.
  destruct (cacheHit now (issuerCache s !! key)); [done|].
  destruct db as [rows|]; [|done].
  by destruct (findOne (sha256 key) rows).
Qed.

Lemma atomic_resolution id db now key sv :
  inFlight sv !! id = None ->
  srv_state (snd (runActions sha256 [Start id now key; Finish id db] sv))
  = snd (resolveIssuer sha256 db now key (srv_state sv)).
Proof.
  intros Hid. rewrite resolveIssuer_split. simpl.
  destruct (resolveStart sha256 now key (srv_state sv)) as [[ctx|h] s1] eqn:E;
    simpl.
  - by rewrite Hid.
  - rewrite lookup_insert_eq. simpl.
    by destruct (resolveFinish db now key h s1).
Qed.

Lemma runActions_cons_snd a acts sv :
  snd (runActions sha256 (a :: acts) sv)
  = snd (runActions sha256 acts (snd (act sha256 a sv))).
Proof.
  simpl. destruct (act sha256 a sv) as [r sv1]; simpl.
  by destruct (runActions sha256 acts sv1).
Qed.

Lemma runActions_snoc acts a sv :
  runActions sha256 (acts ++ [a]) sv
  = (fst (runActions sha256 acts sv)
       ++ [fst (act sha256 a (snd (runActions sha256 acts sv)))],
     snd (act sha256 a (snd (runActions sha256 acts sv)))).
Proof.
  revert sv. induction acts as [|a' acts IH]; intros sv; simpl.
  - by destruct (act sha256 a sv).
  - destruct (act sha256 a' sv) as [r sv1]. rewrite IH.
    destruct (runActions sha256 acts sv1) as [rs sv2]; simpl.
    by destruct (act sha256 a sv2).
Qed.

Lemma resolveFinish_cache_other answer now key h s key' :
  key <> key' ->
  issuerCache (snd (resolveFinish answer now key h s)) !! key'
  = issuerCache s !! key'.
Proof.
  intros Hne. unfold resolveFinish. destruct answer as [rows|]; [|done].
  destruct (findOne h rows); [|done]. simpl. by rewrite lookup_insert_ne.
Qed.

Lemma resolveStart_cache now key s :
  issuerCache (snd (resolveStart sha256 now key s)) = issuerCache s.
Proof.
  unfold resolveStart. by destruct (cacheHit now (issuerCache s !! key)).
Qed.

(** While the call labelled [id] is suspended on [key] and no other
    resolution of [key] is in flight, actions foreign to both keep it so. *)
Lemma act_foreign key id f a sv :
  inFlight sv !! id = Some f ->
  (forall i f', i <> id -> inFlight sv !! i = Some f' -> f_key f' <> key) ->
  foreignTo key id a ->
  inFlight (snd (act sha256 a sv)) !! id = Some f
  /\ (forall i f', i <> id -> inFlight (snd (act sha256 a sv)) !! i = Some f' ->
        f_key f' <> key)
  /\ trace (srv_state sv) `prefix_of` trace (srv_state (snd (act sha256 a sv))).
Proof.
  intros Hid Hothers Hfor. destruct a as [i now k|i answer]; simpl in *.
  - destruct Hfor as [Hi Hk]. unfold resolveStart.
    destruct (cacheHit now (issuerCache (srv_state sv) !! k)); simpl.
    + split; [done|]. split; [done|]. done.
    + split; [by rewrite lookup_insert_ne|]. split.
      * intros j f' Hj. destruct (decide (i = j)) as [->|Hij].
        -- rewrite lookup_insert_eq. by intros [= <-].
        -- rewrite lookup_insert_ne by done. by apply Hothers.
      * by apply prefix_app_r.
  - destruct (inFlight sv !! i) as [fi|] eqn:Hfi; simpl; [|done].
    destruct (resolveFinish answer (f_now fi) (f_key fi) (f_hash fi)
                (srv_state sv)) as [r s1] eqn:E; simpl.
    split; [by rewrite lookup_delete_ne|]. split.
    + intros j f' Hj Hl. apply lookup_delete_Some in Hl as [_ Hl].
      by apply (Hothers j).
    + replace s1 with (snd (resolveFinish answer (f_now fi) (f_key fi)
                              (f_hash fi) (srv_state sv))) by by rewrite E.
      unfold resolveFinish. destruct answer as [rows|]; [|done].
      by destruct (findOne (f_hash fi) rows).
Qed.

Lemma run_foreign key id f mid sv :
  inFlight sv !! id = Some f ->
  (forall i f', i <> id -> inFlight sv !! i = Some f' -> f_key f' <> key) ->
  Forall (foreignTo key id) mid ->
  inFlight (snd (runActions sha256 mid sv)) !! id = Some f
  /\ (forall i f', i <> id ->
        inFlight (snd (runActions sha256 mid sv)) !! i = Some f' ->
        f_key f' <> key).
Proof.
  intros Hid Hothers HF. revert sv Hid Hothers.
  induction HF as [|a mid Ha HF IH]; intros sv Hid Hothers; [done|].
  rewrite runActions_cons_snd.
  destruct (act_foreign key id f a sv Hid Hothers Ha) as (H1 & H2 & _).
  by apply IH.
Qed.

(** While [key] has the cache entry [e] and no resolution of it is in
    flight, actions that start resolutions of [key] only before the entry
    expires keep it so. *)
Lemma act_before key e a sv :
  issuerCache (srv_state sv) !! key = Some e -> noneInFlight key sv ->
  startsBefore key (cacheUntil e) a ->
  issuerCache (srv_state (snd (act sha256 a sv))) !! key = Some e
  /\ noneInFlight key (snd (act sha256 a sv)).
Proof.
  intros He Hnone Ha. destruct a as [i now k|i answer]; simpl in *.
  - unfold resolveStart.
    destruct (cacheHit now (issuerCache (srv_state sv) !! k)) eqn:Eh; simpl;
      [done|].
    split; [done|]. intros j f'. simpl. destruct (decide (i = j)) as [->|Hij].
    + rewrite lookup_insert_eq. intros [= <-]. simpl. intros ->.
      specialize (Ha eq_refl). rewrite He in Eh. simpl in Eh.
      destruct (cacheUntil e >? now) eqn:E; [done|lia].
    + rewrite lookup_insert_ne by done. apply Hnone.
  - destruct (inFlight sv !! i) as [fi|] eqn:Hfi; simpl; [|done].
    pose proof (Hnone i fi Hfi) as Hk.
    pose proof (resolveFinish_cache_other answer (f_now fi) (f_key fi)
                  (f_hash fi) (srv_state sv) key Hk) as Hc.
    destruct (resolveFinish answer (f_now fi) (f_key fi) (f_hash fi)
                (srv_state sv)) as [r s1]; simpl in *.
    split; [by rewrite Hc|].
    intros j f' Hl. simpl in Hl. apply lookup_delete_Some in Hl as [_ Hl].
    by apply (Hnone j).
Qed.

Lemma run_before key e pre sv :
  issuerCache (srv_state sv) !! key = Some e -> noneInFlight key sv ->
  Forall (startsBefore key (cacheUntil e)) pre ->
  issuerCache (srv_state (snd (runActions sha256 pre sv))) !! key = Some e
  /\ noneInFlight key (snd (runActions sha256 pre sv)).
Proof.
  intros He Hnone HF. revert sv He Hnone.
  induction HF as [|a pre Ha HF IH]; intros sv He Hnone; [done|].
  rewrite runActions_cons_snd.
  destruct (act_before key e a sv He Hnone Ha) as [H1 H2]. by apply IH.
Qed.

(** The resolution labelled [id] of [key], started at [t] on a cache miss
    with no other resolution of [key] in flight, and completed by an answer
    of the store that holds the issuer. *)
Lemma first_resolution sv id t key mid rows issuer :
  noneInFlight key sv ->
  cacheHit t (issuerCache (srv_state sv) !! key) = None ->
  Forall (foreignTo key id) mid ->
  findOne (sha256 key) rows = Some issuer ->
  let first := Start id t key :: mid ++ [Finish id (Some rows)] in
  List.last (fst (runActions sha256 first sv)) None
  = Some (Returned (Some (contextOf issuer)))
  /\ issuerCache (srv_state (snd (runActions sha256 first sv))) !! key
     = Some {| issuerId := issuer_id issuer;
               cachedTier := default FREE (issuer_tier issuer);
               cacheUntil := t + 5 * 60000 |}
  /\ noneInFlight key (snd (runActions sha256 first sv)).
Proof.
  intros Hnone Hmiss Hmid Hfind first. subst first.
  change (Start id t key :: mid ++ [Finish id (Some rows)])
    with ((Start id t key :: mid) ++ [Finish id (Some rows)]).
  rewrite runActions_snoc. cbn [fst snd]. rewrite List.last_last.
  rewrite runActions_cons_snd.
  assert (snd (act sha256 (Start id t key) sv)
          = {| srv_state := emit (DbFind (sha256 key)) (srv_state sv);
               inFlight := <[id := {| f_now := t; f_key := key;
                                      f_hash := sha256 key |}]> (inFlight sv) |})
    as ->.
  { simpl. unfold resolveStart. by rewrite Hmiss. }
  set (sva := {| srv_state := emit (DbFind (sha256 key)) (srv_state sv);
                 inFlight := <[id := {| f_now := t; f_key := key;
                                        f_hash := sha256 key |}]>
                               (inFlight sv) |}).
  destruct (run_foreign key id {| f_now := t; f_key := key; f_hash := sha256 key |}
              mid sva) as [Hid Hothers]; [| |done|].
  { simpl. apply lookup_insert_eq. }
  { intros i f' Hi. simpl. rewrite lookup_insert_ne by done. apply Hnone. }
  set (svm := snd (runActions sha256 mid sva)) in *.
  simpl. rewrite Hid. simpl. rewrite Hfind. simpl.
  split; [done|]. split; [apply lookup_insert_eq|].
  intros j f' Hl. simpl in Hl. apply lookup_delete_Some in Hl as [Hj Hl].
  by apply (Hothers j).
Qed.

(** C5, amended.  A resolution of a key that starts at [t] on a cache miss
    while no other resolution of that key is in flight, is not overlapped
    by another resolution of the key while it waits for the store ([mid]),
    and is answered with the issuer, performs one durable lookup, returns
    the identity and caches it until five minutes after [t].  From its
    completion on, whatever else runs in between ([pre]: starts and
    completions of other resolutions, and resolutions of this key that
    start before that time), a resolution of the key that starts strictly
    before [t] plus five minutes performs no durable lookup, changes
    nothing and returns the cached identity; one that starts at or after it
    performs the durable lookup again.  So a resolution that misses the
    cache and a second one of the same key that starts after the first has
    completed, within five minutes of its start, perform the lookup once.
    Being served from the cache does not extend the five minutes. *)
Theorem cache_serves_until_ttl sv id t key mid rows issuer pre id' t' :
  noneInFlight key sv ->
  cacheHit t (issuerCache (srv_state sv) !! key) = None ->
  Forall (foreignTo key id) mid ->
  findOne (sha256 key) rows = Some issuer ->
  Forall (startsBefore key (t + 5 * 60000)) pre ->
  let first := Start id t key :: mid ++ [Finish id (Some rows)] in
  let sv1 := snd (runActions sha256 first sv) in
  let sv2 := snd (runActions sha256 pre sv1) in
  trace (srv_state (snd (act sha256 (Start id t key) sv)))
  = trace (srv_state sv) ++ [DbFind (sha256 key)]
  /\ List.last (fst (runActions sha256 first sv)) None
     = Some (Returned (Some (contextOf issuer)))
  /\ (t' < t + 5 * 60000 ->
      act sha256 (Start id' t' key) sv2
      = (Some (Returned (Some (contextOf issuer))), sv2))
  /\ (t + 5 * 60000 <= t' ->
      fst (act sha256 (Start id' t' key) sv2) = None
      /\ trace (srv_state (snd (act sha256 (Start id' t' key) sv2)))
         = trace (srv_state sv2) ++ [DbFind (sha256 key)])
  /\ (t' < t + 5 * 60000 ->
      trace (srv_state
               (snd (runActions sha256
                       [Start id t key; Finish id (Some rows);
                        Start id' t' key] sv)))
      = trace (srv_state sv) ++ [DbFind (sha256 key)]).
Proof.
  intros Hnone Hmiss Hmid Hfind Hpre first sv1 sv2.
  destruct (first_resolution sv id t key mid rows issuer Hnone Hmiss Hmid Hfind)
    as (Hlast & Hentry & Hidle).
  fold first in Hlast, Hentry, Hidle. fold sv1 in Hentry, Hidle.
  destruct (run_before key _ pre sv1 Hentry Hidle Hpre) as [Hentry2 _].
  fold sv2 in Hentry2.
  split; [|split; [done|split; [|split]]].
  - simpl. unfold resolveStart. by rewrite Hmiss.
  - intros Hlt. simpl. unfold resolveStart, cacheHit. rewrite Hentry2. simpl.
    destruct (t + 5 * 60000 >? t') eqn:E; [|lia]. by destruct sv2.
  - intros Hge. simpl. unfold resolveStart, cacheHit. rewrite Hentry2. simpl.
    by destruct (t + 5 * 60000 >? t') eqn:E; [lia|].
  - intros Hlt. simpl. unfold resolveStart at 1. rewrite Hmiss. simpl.
    rewrite lookup_insert_eq. simpl. rewrite Hfind. simpl.
    unfold resolveStart, cacheHit. simpl. rewrite lookup_insert_eq. simpl.
    by destruct (t + 5 * 60000 >? t') eqn:E; [|lia].
Qed.
End Overlap.

Lemma cache_serves_until_ttl_witness :
  let sv := idleServer initState in
  let first := Start 1 0 "key-1"
               :: [Start 2 5 "key-2"] ++ [Finish 1 (Some [demoIssuer true])] in
  let sv1 := snd (runActions demoHash first sv) in
  let sv2 := snd (runActions demoHash
                    [Start 3 299999 "key-1"; Finish 2 None] sv1) in
  trace (srv_state (snd (act demoHash (Start 1 0 "key-1") sv)))
  = trace (srv_state sv) ++ [DbFind (demoHash "key-1")]
  /\ List.last (fst (runActions demoHash first sv)) None
     = Some (Returned (Some (contextOf (demoIssuer true))))
  /\ (300000 < 0 + 5 * 60000 ->
      act demoHash (Start 4 300000 "key-1") sv2
      = (Some (Returned (Some (contextOf (demoIssuer true)))), sv2))
  /\ (0 + 5 * 60000 <= 300000 ->
      fst (act demoHash (Start 4 300000 "key-1") sv2) = None
      /\ trace (srv_state (snd (act demoHash (Start 4 300000 "key-1") sv2)))
         = trace (srv_state sv2) ++ [DbFind (demoHash "key-1")])
  /\ (300000 < 0 + 5 * 60000 ->
      trace (srv_state
               (snd (runActions demoHash
                       [Start 1 0 "key-1"; Finish 1 (Some [demoIssuer true]);
                        Start 4 300000 "key-1"] sv)))
      = trace (srv_state sv) ++ [DbFind (demoHash "key-1")]).
Proof.
  apply (cache_serves_until_ttl demoHash (idleServer initState) 1%nat 0 "key-1"
           [Start 2 5 "key-2"] [demoIssuer true] (demoIssuer true)
           [Start 3 299999 "key-1"; Finish 2 None] 4%nat 300000).
  - intros i f Hf. simpl in Hf. by rewrite lookup_empty in Hf.
  - reflexivity.
  - repeat constructor; discriminate.
  - reflexivity.
  - repeat constructor.
Defined.

(** Two resolutions of one key that overlap at the await both go to the
    store, and the one that completes last sets the expiry of the entry
    from its own start. *)
Example overlapping_resolutions_both_query :
  let run := runActions demoHash
               [Start 1 0 "key-1"; Start 2 10 "key-1";
                Finish 2 (Some [demoIssuer true]);
                Finish 1 (Some [demoIssuer true])]
               (idleServer initState) in
  trace (srv_state (snd run))
  = [DbFind (demoHash "key-1"); DbFind (demoHash "key-1")]
  /\ (cacheUntil <$> issuerCache (srv_state (snd run)) !! "key-1")
     = Some 300000.
Proof. by vm_compute. Qed.

(** A resolution served from the cache at 299999 ms succeeds, and the next
    resolution of the same key, one millisecond later and so well within
    five minutes of that success, performs the durable lookup again: the
    entry written at 0 ms has expired. *)
Lemma cache_hit_does_not_extend_counterexample :
  let db := Some [demoIssuer true] in
  let ctx := {| ctx_id := "issuer-1"; ctx_tier := PAID |} in
  let run := runLookups demoHash
               [mkLookup 0 "key-1" db; mkLookup 299999 "key-1" db] initState in
  fst run = [Returned (Some ctx); Returned (Some ctx)]
  /\ trace (snd run) = [DbFind (demoHash "key-1")]
  /\ 300000 < 299999 + 5 * 60000
  /\ fst (resolveIssuer demoHash db 300000 "key-1" (snd run))
     = Returned (Some ctx)
  /\ trace (snd (resolveIssuer demoHash db 300000 "key-1" (snd run)))
     = [DbFind (demoHash "key-1"); DbFind (demoHash "key-1")].
Proof. vm_compute. repeat split; discriminate. Qed.

Lemma resolved_issuer_was_active_witness :
  let hist := [mkLookup 0 "key-1" (Some [demoIssuer true])] in
  let l := mkLookup 1000 "key-1" (Some [demoIssuer false]) in
  let ctx := {| ctx_id := "issuer-1"; ctx_tier := PAID |} in
  servedBy demoHash l (l_key l) ctx
  \/ exists l', In l' hist
       /\ servedBy demoHash l' (l_key l) ctx
       /\ l_now l < l_now l' + 5 * 60000.
Proof.
  apply (resolved_issuer_was_active demoHash
           [mkLookup 0 "key-1" (Some [demoIssuer true])]
           (mkLookup 1000 "key-1" (Some [demoIssuer false]))
           {| ctx_id := "issuer-1"; ctx_tier := PAID |}).
  vm_compute. reflexivity.
Defined.

(** An issuer is resolved and cached, then deactivated in the store; a
    second resolution a second later still returns its identity, while the
    store at that time holds no active issuer for the key. *)
Lemma deactivated_issuer_resolves_counterexample :
  let s := snd (resolveIssuer demoHash (Some [demoIssuer true]) 0 "key-1"
                  initState) in
  let l := mkLookup 1000 "key-1" (Some [demoIssuer false]) in
  let ctx := {| ctx_id := "issuer-1"; ctx_tier := PAID |} in
  resolveStep demoHash l s = (Returned (Some ctx), s)
  /\ findOne (demoHash "key-1") [demoIssuer false] = None
  /\ ~ servedBy demoHash l "key-1" ctx.
Proof.
  split; [by vm_compute|]. split; [by vm_compute|].
  intros (_ & rows & i & Hdb & Hin & Ha & _).
  simpl in Hdb. injection Hdb as <-.
  destruct Hin as [<-|[]]. discriminate Ha.
Qed.

(** ** The route key of the request gate *)

(** A keyed request for which the router exposes no route pattern: the
    bucket is created under the raw URL, path parameter included. *)
Lemma raw_url_route_key_counterexample :
  let req := {| xApiKey := Some (HeaderString "key-1");
                routePath := None;
                originalUrl := Some "/certificates/abc123";
                url := "/certificates/abc123" |} in
  let s := snd (canActivate defaultConfig acceptAll demoHash
                  (Some [demoIssuer true]) 0 0 0 req initState) in
  List.map fst (usage s) = [bucketKey "issuer-1" "/certificates/abc123"]
  /\ routePathOf req = "/certificates/abc123".
Proof. by vm_compute. Qed.

(** C7, amended.  For every keyed request whose issuer resolves, the gate
    consumes from the bucket keyed by the issuer id and [routePathOf]: that
    is the matched route pattern whenever the router exposes a non-empty
    one; when it exposes none, or an empty one, the route key is the raw
    [originalUrl], and the raw [url] when that is absent or empty too. *)
Theorem gate_route_key cfg q sha256 db tResolve tConsume tRetry req s
    apiKey issuer s1 :
  apiKeyOf req = Some apiKey ->
  truthy apiKey = true ->
  resolveIssuer sha256 db tResolve apiKey s = (Returned (Some issuer), s1) ->
  snd (canActivate cfg q sha256 db tResolve tConsume tRetry req s)
  = snd (consume cfg q tConsume (ctx_id issuer) (ctx_tier issuer)
           (routePathOf req) s1)
  /\ (forall p, routePath req = Some p -> p <> "" -> routePathOf req = p)
  /\ (routePath req = None \/ routePath req = Some "" ->
      forall o, originalUrl req = Some o -> o <> "" -> routePathOf req = o)
  /\ (routePath req = None \/ routePath req = Some "" ->
      originalUrl req = None \/ originalUrl req = Some "" ->
      routePathOf req = url req).
Proof.
  intros Hkey Htruthy Hres. split; [|split; [|split]].
  - unfold canActivate. rewrite Hkey, Htruthy, Hres; simpl.
    destruct (consume _ _ _ _ _ _ _) as [r s2]; simpl.
    by destruct (allowed r).
  - intros p Hp Hne. unfold routePathOf. rewrite Hp. unfold truthy.
    destruct (String.eqb p "") eqn:E; [|done].
    by apply String.eqb_eq in E.
  - intros Hr o Ho Hne. unfold routePathOf, truthy. rewrite Ho.
    assert (String.eqb o "" = false) as -> by by apply String.eqb_neq.
    by destruct Hr as [->| ->].
  - intros Hr Ho. unfold routePathOf, truthy.
    by destruct Hr as [->| ->], Ho as [->| ->].
Qed.

Lemma gate_route_key_witness :
  let req := {| xApiKey := Some (HeaderArray ["key-1"; "key-2"]);
                routePath := Some "/certificates/:id";
                originalUrl := Some "/certificates/abc123";
                url := "/certificates/abc123" |} in
  let issuer := {| ctx_id := "issuer-1"; ctx_tier := PAID |} in
  let s1 := snd (resolveIssuer demoHash (Some [demoIssuer true]) 0 "key-1"
                   initState) in
  snd (canActivate defaultConfig acceptAll demoHash (Some [demoIssuer true])
         0 1 2 req initState)
  = snd (consume defaultConfig acceptAll 1 (ctx_id issuer) (ctx_tier issuer)
           (routePathOf req) s1)
  /\ (forall p, routePath req = Some p -> p <> "" -> routePathOf req = p)
  /\ (routePath req = None \/ routePath req = Some "" ->
      forall o, originalUrl req = Some o -> o <> "" -> routePathOf req = o)
  /\ (routePath req = None \/ routePath req = Some "" ->
      originalUrl req = None \/ originalUrl req = Some "" ->
      routePathOf req = url req).
Proof.
  intros req issuer s1.
  apply (gate_route_key defaultConfig acceptAll demoHash
           (Some [demoIssuer true]) 0 1 2 req initState "key-1" issuer s1).
  - reflexivity.
  - reflexivity.
  - vm_compute. reflexivity.
Defined.

(** * Further properties of the rate limiter *)

(** ** What one consume returns and what it touches *)

(** X1.  The remaining quota [consume] returns is never negative; after an
    allowed consume it is the limit less the bucket's new count, whatever
    the tier and the state; after a denied one it is 0. *)
Theorem remaining_plus_count cfg q now issuer t routeKey s :
  let r := fst (consume cfg q now issuer t routeKey s) in
  let s' := snd (consume cfg q now issuer t routeKey s) in
  0 <= remaining r
  /\ (allowed r = true ->
      exists b, usageGet (bucketKey issuer routeKey) (usage s') = Some b
                /\ remaining r + count b = limit r
                /\ count b <= limit r)
  /\ (allowed r = false -> remaining r = 0).
Proof.
  intros r s'. subst r s'. rewrite consume_result, consume_usage_same.
  destruct (count _ >=? tierLimit cfg t) eqn:E; simpl.
  - repeat split; (done || lia).
  - split; [lia|]. split; [|done]. intros _. eexists. split; [done|].
    rewrite settled_count, E. lia.
Qed.

Lemma remaining_plus_count_witness :
  exists b,
    usageGet (bucketKey "issuer-1" "/verify")
      (usage (snd (consume defaultConfig rejectAll 7 "issuer-1" PAID "/verify"
                     initState))) = Some b
    /\ remaining (fst (consume defaultConfig rejectAll 7 "issuer-1" PAID
                         "/verify" initState)) + count b
       = limit (fst (consume defaultConfig rejectAll 7 "issuer-1" PAID
                       "/verify" initState))
    /\ count b <= limit (fst (consume defaultConfig rejectAll 7 "issuer-1" PAID
                                "/verify" initState)).
Proof.
  apply (proj1 (proj2 (remaining_plus_count defaultConfig rejectAll 7
                         "issuer-1" PAID "/verify" initState))).
  reflexivity.
Defined.

Lemma usageWrite_keys key b u :
  List.map fst (usageWrite key b u) = List.map fst u.
Proof.
  induction u as [|[k b0] u IH]; simpl; [done|].
  destruct (String.eqb k key); simpl; [done|]. by rewrite IH.
Qed.

Lemma usageWrite_same key b u :
  usageGet key u = Some b -> usageWrite key b u = u.
Proof.
  induction u as [|[k b0] u IH]; simpl; [done|].
  destruct (String.eqb k key); [by intros [= ->]|].
  intros H. by rewrite IH.
Qed.

Lemma usageGet_In key b u : usageGet key u = Some b -> In (key, b) u.
Proof.
  induction u as [|[k b0] u IH]; simpl; [done|].
  destruct (String.eqb k key) eqn:E.
  - apply String.eqb_eq in E. intros [= ->]. left. by rewrite E.
  - intros H. right. by apply IH.
Qed.

Lemma usageGet_None_keys key u :
  usageGet key u = None -> ~ In key (List.map fst u).
Proof.
  induction u as [|[k b0] u IH]; simpl; [tauto|].
  destruct (String.eqb k key) eqn:E; [done|].
  apply String.eqb_neq in E. intros H [Hk|Hin]; [done|]. by apply IH.
Qed.

(** X2.  A consume touches one bucket and nothing else: the issuer cache
    and every bucket under another key are as before, and the keys of the
    usage map keep their order, the key of a bucket that did not exist
    going last. *)
Theorem consume_touches_own_bucket cfg q now issuer t routeKey s :
  let key := bucketKey issuer routeKey in
  let s' := snd (consume cfg q now issuer t routeKey s) in
  issuerCache s' = issuerCache s
  /\ (forall key', key' <> key ->
        usageGet key' (usage s') = usageGet key' (usage s))
  /\ List.map fst (usage s')
     = match usageGet key (usage s) with
       | Some _ => List.map fst (usage s)
       | None => List.map fst (usage s) ++ [key]
       end.
Proof.
  intros key s'. subst s'. split; [apply consume_issuerCache|]. split.
  - intros key' Hne. by apply consume_usage_other.
  - rewrite consume_usage, usageWrite_keys. unfold fetchOrCreate. fold key.
    destruct (usageGet key (usage s)); simpl; [done|].
    unfold usageAdd. by rewrite List.map_app.
Qed.

Lemma consume_touches_own_bucket_witness :
  let s := snd (consume defaultConfig acceptAll 0 "issuer-1" FREE "/a"
                  initState) in
  usageGet "issuer-1:/a"
    (usage (snd (consume defaultConfig acceptAll 5 "issuer-2" PAID "/a" s)))
  = usageGet "issuer-1:/a" (usage s).
Proof.
  intros s.
  apply (proj1 (proj2 (consume_touches_own_bucket defaultConfig acceptAll 5
                         "issuer-2" PAID "/a" s))).
  discriminate.
Defined.

(** X3.  A consume that is denied on a bucket whose window is still running
    changes no bucket at all: the usage map is the one it found. *)
Theorem denied_consume_keeps_usage cfg q now issuer t routeKey s b :
  usageGet (bucketKey issuer routeKey) (usage s) = Some b ->
  now - windowStart b < windowMs cfg ->
  tierLimit cfg t <= count b ->
  fst (consume cfg q now issuer t routeKey s)
  = {| allowed := false; limit := tierLimit cfg t; remaining := 0;
       resetAt := windowStart b + windowMs cfg |}
  /\ usage (snd (consume cfg q now issuer t routeKey s)) = usage s.
Proof.
  intros Hb Hw Hfull.
  assert (entered cfg now t (bucketKey issuer routeKey) (usage s) = b) as He.
  { rewrite (entered_existing _ _ _ _ _ b Hb). unfold rollover.
    destruct (now - windowStart b >=? windowMs cfg) eqn:E; [lia|done]. }
  rewrite consume_result, consume_usage, He. unfold settled, fetchOrCreate.
  rewrite Hb. simpl.
  destruct (count b >=? tierLimit cfg t) eqn:E; [|lia].
  split; [done|]. by apply usageWrite_same.
Qed.

Lemma denied_consume_keeps_usage_witness :
  let cfg := configure None (Some 1) None in
  let s := snd (consume cfg acceptAll 0 "issuer-1" FREE "/a" initState) in
  fst (consume cfg acceptAll 9 "issuer-1" FREE "/a" s)
  = {| allowed := false; limit := tierLimit cfg FREE; remaining := 0;
       resetAt := 0 + windowMs cfg |}
  /\ usage (snd (consume cfg acceptAll 9 "issuer-1" FREE "/a" s)) = usage s.
Proof.
  intros cfg s.
  apply (denied_consume_keeps_usage cfg acceptAll 9 "issuer-1" FREE "/a" s
           {| windowStart := 0; count := 1; tier := FREE;
              notifiedUpgrade := true |}).
  - reflexivity.
  - vm_compute. reflexivity.
  - vm_compute. discriminate.
Defined.

(** ** Invariants of the usage map *)

Lemma usageWrite_Forall (P : string * UsageBucket -> Prop) key b u :
  List.Forall P u -> P (key, b) -> List.Forall P (usageWrite key b u).
Proof.
  intros HF HP. induction HF as [|[k b0] u Hk HF IH]; simpl; [constructor|].
  destruct (String.eqb k key) eqn:E.
  - apply String.eqb_eq in E. subst k. by constructor.
  - by constructor.
Qed.

Lemma countCap_bounds cfg t : tierLimit cfg t <= countCap cfg /\ 0 <= countCap cfg.
Proof. unfold countCap. destruct t; simpl; lia. Qed.

(** One consume keeps the usage map well formed, for a clock that does not
    go back. *)
Lemma consume_usageOk cfg q prev now issuer t routeKey s :
  UsageOk cfg prev (usage s) -> prev <= now ->
  UsageOk cfg now (usage (snd (consume cfg q now issuer t routeKey s))).
Proof.
  intros [Hnd HF] Hclock. rewrite consume_usage.
  set (key := bucketKey issuer routeKey).
  pose proof (countCap_bounds cfg t) as [Hcap Hcap0].
  assert (List.Forall (fun e => 0 <= count (snd e) <= countCap cfg
                                /\ windowStart (snd e) <= now) (usage s)) as HF'.
  { eapply List.Forall_impl; [|exact HF]. simpl. intros e. lia. }
  assert (0 <= count (entered cfg now t key (usage s)) <= countCap cfg
          /\ windowStart (entered cfg now t key (usage s)) <= now) as Hent.
  { unfold entered, fetchOrCreate, rollover.
    destruct (usageGet key (usage s)) as [b|] eqn:Hb; simpl.
    - apply usageGet_In in Hb.
      pose proof (proj1 (List.Forall_forall _ _) HF' _ Hb) as Hin.
      simpl in Hin. destruct (now - windowStart b >=? windowMs cfg); simpl; lia.
    - destruct (now - now >=? windowMs cfg); simpl; lia. }
  assert (0 <= count (settled cfg t (entered cfg now t key (usage s)))
          <= countCap cfg
          /\ windowStart (settled cfg t (entered cfg now t key (usage s)))
             <= now) as Hset.
  { rewrite settled_count, settled_windowStart.
    destruct (count _ >=? tierLimit cfg t) eqn:E; lia. }
  split.
  - rewrite usageWrite_keys. unfold fetchOrCreate.
    destruct (usageGet key (usage s)) eqn:Hb; simpl; [done|].
    unfold usageAdd. rewrite List.map_app. simpl.
    apply NoDup_app. split; [done|]. split.
    + intros x Hx Hin. apply list_elem_of_In in Hx.
      apply list_elem_of_In in Hin. destruct Hin as [<-|[]].
      by apply (usageGet_None_keys key (usage s)).
    + apply NoDup_singleton.
  - apply usageWrite_Forall; [|done]. unfold fetchOrCreate.
    destruct (usageGet key (usage s)); simpl; [done|].
    unfold usageAdd. apply List.Forall_app. split; [done|].
    constructor; [|constructor]. simpl. lia.
Qed.

Lemma lastTime_cons now c cs : lastTime now (c :: cs) = lastTime (c_now c) cs.
Proof.
  unfold lastTime. simpl. destruct (List.map c_now cs) eqn:E; [done|].
  clear E. revert z. induction l as [|x l IH]; intros z; simpl; [done|].
  apply IH.
Qed.

Lemma runCalls_usageOk cfg q cs now s :
  UsageOk cfg now (usage s) -> clockFrom now cs ->
  UsageOk cfg (lastTime now cs) (usage (snd (runCalls cfg q cs s))).
Proof.
  revert now s. induction cs as [|c cs IH]; intros now s Hok Hclock; [done|].
  destruct Hclock as [Hle Hrest].
  rewrite runCalls_cons_snd, lastTime_cons. apply IH; [|done].
  unfold step. by apply (consume_usageOk cfg q now).
Qed.

Lemma initState_usageOk cfg now : UsageOk cfg now (usage initState).
Proof. split; simpl; constructor. Qed.

(** X4.  Whatever sequence of consumes the service has served since it
    started, at times that never go back, its usage map holds each key
    once, every bucket's count lies between 0 and the larger of the two
    limits, and no window starts later than the last call. *)
Theorem usage_invariant cfg q t0 cs :
  clockFrom t0 cs ->
  UsageOk cfg (lastTime t0 cs) (usage (snd (runCalls cfg q cs initState))).
Proof.
  intros Hclock. apply runCalls_usageOk; [apply initState_usageOk|done].
Qed.

Lemma usage_invariant_witness :
  UsageOk defaultConfig (lastTime 0 (callsAt "issuer-1" FREE "/a" 0 3))
    (usage (snd (runCalls defaultConfig acceptAll
                   (callsAt "issuer-1" FREE "/a" 0 3) initState))).
Proof.
  apply (usage_invariant defaultConfig acceptAll 0
           (callsAt "issuer-1" FREE "/a" 0 3)).
  simpl. lia.
Defined.

(** ** The quota of a window, at any tier *)

Section TierWindow.
Variables (cfg : Config) (q : QueueOracle) (t : IssuerTier).
Variables (key : string) (t0 : Z).

Hypothesis limit_pos : 1 <= tierLimit cfg t.

Lemma count_step n c s :
  1 <= n -> CountAt cfg t key t0 n s -> callKey c = key ->
  inWindowAt cfg t key t0 c ->
  CountAt cfg t key t0 (n + 1) (snd (step cfg q c s))
  /\ fst (step cfg q c s)
     = (if n <? tierLimit cfg t
        then {| allowed := true; limit := tierLimit cfg t;
                remaining := tierLimit cfg t - (n + 1);
                resetAt := t0 + windowMs cfg |}
        else {| allowed := false; limit := tierLimit cfg t; remaining := 0;
                resetAt := t0 + windowMs cfg |}).
Proof.
  intros Hn (b & Hget & Hws & Hcnt) Hkey Hin.
  destruct (Hin Hkey) as [Ht Hw]. unfold step.
  pose proof (consume_result cfg q (c_now c) (c_issuer c) (c_tier c)
                (c_route c) s) as HR.
  pose proof (consume_usage_same cfg q (c_now c) (c_issuer c) (c_tier c)
                (c_route c) s) as HU.
  fold (callKey c) in HR, HU. rewrite Hkey, Ht in HR, HU.
  rewrite (entered_in_window cfg key _ _ b) in HR, HU by (done || lia).
  rewrite Ht. split.
  - eexists. split; [exact HU|].
    rewrite settled_windowStart, settled_count.
    split; [done|]. destruct (count b >=? tierLimit cfg t) eqn:E; lia.
  - rewrite HR, Hws, Hcnt.
    destruct (n <? tierLimit cfg t) eqn:E.
    + replace (Z.min n (tierLimit cfg t)) with n by lia.
      destruct (n >=? tierLimit cfg t) eqn:E'; [lia|]. f_equal. lia.
    + replace (Z.min n (tierLimit cfg t)) with (tierLimit cfg t) by lia.
      destruct (tierLimit cfg t >=? tierLimit cfg t) eqn:E'; [done|lia].
Qed.

Lemma count_frame n c s :
  CountAt cfg t key t0 n s -> callKey c <> key ->
  CountAt cfg t key t0 n (snd (step cfg q c s)).
Proof.
  intros (b & Hget & Hws & Hcnt) Hkey. exists b. repeat split; try done.
  unfold step. by rewrite consume_usage_other.
Qed.

Lemma count_run n cs s :
  1 <= n -> CountAt cfg t key t0 n s ->
  Forall (inWindowAt cfg t key t0) cs ->
  CountAt cfg t key t0 (n + hits key cs) (snd (runCalls cfg q cs s)).
Proof.
  intros Hn HW HF. revert n s Hn HW.
  induction HF as [|c cs Hc HF IH]; intros n s Hn HW.
  - unfold hits; simpl. by rewrite Z.add_0_r.
  - rewrite runCalls_cons_snd.
    assert (hits key (c :: cs)
            = (if String.eqb (callKey c) key then 1 else 0) + hits key cs) as ->.
    { unfold hits; simpl. unfold onKey at 1.
      destruct (String.eqb (callKey c) key); simpl length; lia. }
    destruct (String.eqb (callKey c) key) eqn:E.
    + apply String.eqb_eq in E.
      destruct (count_step n c s Hn HW E Hc) as [HW1 _].
      replace (n + (1 + hits key cs)) with (n + 1 + hits key cs) by lia.
      apply IH; [lia|done].
    + apply String.eqb_neq in E. simpl.
      apply IH; [done|]. by apply count_frame.
Qed.

Lemma count_open c s :
  callKey c = key -> c_now c = t0 -> c_tier c = t -> opensWindow cfg c s ->
  CountAt cfg t key t0 1 (snd (step cfg q c s))
  /\ fst (step cfg q c s)
     = {| allowed := true; limit := tierLimit cfg t;
          remaining := tierLimit cfg t - 1; resetAt := t0 + windowMs cfg |}.
Proof.
  intros Hkey Hnow Ht Hopen. unfold step.
  pose proof (consume_result cfg q (c_now c) (c_issuer c) (c_tier c)
                (c_route c) s) as HR.
  pose proof (consume_usage_same cfg q (c_now c) (c_issuer c) (c_tier c)
                (c_route c) s) as HU.
  fold (callKey c) in HR, HU.
  rewrite (entered_opens cfg c s Hopen) in HR, HU.
  rewrite Hkey, Ht, Hnow in *. unfold freshBucket in *.
  cbn [count windowStart] in *.
  destruct (0 >=? tierLimit cfg t) eqn:E0; [lia|].
  split.
  - eexists. split; [exact HU|].
    rewrite settled_windowStart, settled_count. cbn [count windowStart].
    rewrite E0. split; [done|lia].
  - rewrite HR. f_equal. lia.
Qed.
End TierWindow.

(** X5.  In a window that the consume [c0] opens at a tier with a limit of
    at least 1, and in which every consume on the bucket is made at that
    tier, the opening consume is allowed with [remaining = limit - 1], and
    the consume number [n] of the window is allowed with
    [remaining = limit - n] as long as [n <= limit] and denied with
    [remaining = 0] after that; all of them return the same [resetAt], one
    window length after the opening consume. *)
Theorem quota_countdown cfg q t s c0 pre c :
  1 <= tierLimit cfg t ->
  c_tier c0 = t ->
  opensWindow cfg c0 s ->
  Forall (inWindowAt cfg t (callKey c0) (c_now c0)) (pre ++ [c]) ->
  callKey c = callKey c0 ->
  let n := 2 + hits (callKey c0) pre in
  fst (step cfg q c0 s)
  = {| allowed := true; limit := tierLimit cfg t;
       remaining := tierLimit cfg t - 1;
       resetAt := c_now c0 + windowMs cfg |}
  /\ fst (step cfg q c (snd (runCalls cfg q (c0 :: pre) s)))
     = if n <=? tierLimit cfg t
       then {| allowed := true; limit := tierLimit cfg t;
               remaining := tierLimit cfg t - n;
               resetAt := c_now c0 + windowMs cfg |}
       else {| allowed := false; limit := tierLimit cfg t; remaining := 0;
               resetAt := c_now c0 + windowMs cfg |}.
Proof.
  intros HL Ht Hopen HF Hkey n.
  apply Forall_app in HF as [Hpre Hc]. apply Forall_inv in Hc.
  destruct (count_open cfg q t (callKey c0) (c_now c0) HL c0 s)
    as [HW0 HR0]; try done.
  split; [done|].
  pose proof (count_run cfg q t (callKey c0) (c_now c0) 1 pre _
                ltac:(lia) HW0 Hpre) as HW.
  rewrite <- runCalls_cons_snd in HW.
  destruct (count_step cfg q t (callKey c0) (c_now c0)
              (1 + hits (callKey c0) pre) c
              (snd (runCalls cfg q (c0 :: pre) s))) as [_ HR]; try done.
  { unfold hits. lia. }
  rewrite HR. subst n.
  destruct (1 + hits (callKey c0) pre <? tierLimit cfg t) eqn:E1,
           (2 + hits (callKey c0) pre <=? tierLimit cfg t) eqn:E2;
    try lia; [f_equal; lia|done].
Qed.

Lemma quota_countdown_witness :
  let cfg := defaultConfig in
  let c0 := mkCall 0 "issuer-1" PAID "/verify" in
  let pre := callsAt "issuer-1" PAID "/verify" 1 598 in
  let c := mkCall 700 "issuer-1" PAID "/verify" in
  let n := 2 + hits (callKey c0) pre in
  fst (step cfg acceptAll c0 initState)
  = {| allowed := true; limit := tierLimit cfg PAID;
       remaining := tierLimit cfg PAID - 1;
       resetAt := c_now c0 + windowMs cfg |}
  /\ fst (step cfg acceptAll c (snd (runCalls cfg acceptAll (c0 :: pre) initState)))
     = if n <=? tierLimit cfg PAID
       then {| allowed := true; limit := tierLimit cfg PAID;
               remaining := tierLimit cfg PAID - n;
               resetAt := c_now c0 + windowMs cfg |}
       else {| allowed := false; limit := tierLimit cfg PAID; remaining := 0;
               resetAt := c_now c0 + windowMs cfg |}.
Proof.
  apply (quota_countdown defaultConfig acceptAll PAID initState
           (mkCall 0 "issuer-1" PAID "/verify")
           (callsAt "issuer-1" PAID "/verify" 1 598)
           (mkCall 700 "issuer-1" PAID "/verify")).
  - vm_compute. discriminate.
  - reflexivity.
  - exact I.
  - apply Forall_app. split.
    + apply List.Forall_forall. intros c Hc _. unfold callsAt in Hc.
      apply List.in_map_iff in Hc as (i & <- & Hi). apply List.in_seq in Hi.
      simpl. split; [reflexivity|].
      change (windowMs defaultConfig) with 60000. lia.
    + repeat constructor.
  - reflexivity.
Defined.

(** ** Resolution: what is cached and what is not *)


Lemma resolve_usage sha256 db now key s :
  usage (snd (resolveIssuer sha256 db now key s)) = usage s.
Proof.
  unfold resolveIssuer.
  destruct (cacheHit now (issuerCache s !! key)); [done|].
  destruct db as [rows|]; [|done].
  by destruct (findOne (sha256 key) rows).
Qed.



(** X7.  A resolution never touches the usage map, never changes the cache
    entry of another key, and writes to the cache only when it returns an
    identity it has just looked up: after NotFound, after a failure of the
    store and after a cache hit the cache is as before. *)
Theorem resolve_writes_only_on_success sha256 db now key s :
  let r := fst (resolveIssuer sha256 db now key s) in
  let s' := snd (resolveIssuer sha256 db now key s) in
  usage s' = usage s
  /\ (forall key', key' <> key -> issuerCache s' !! key' = issuerCache s !! key')
  /\ (issuerCache s' <> issuerCache s ->
      exists rows issuer,
        db = Some rows /\ findOne (sha256 key) rows = Some issuer
        /\ r = Returned (Some (contextOf issuer))
        /\ issuerCache s' !! key
           = Some {| issuerId := issuer_id issuer;
                     cachedTier := default FREE (issuer_tier issuer);
                     cacheUntil := now + 5 * 60000 |}).
Proof.
  intros r s'. subst r s'. unfold resolveIssuer.
  destruct (cacheHit now (issuerCache s !! key)); [by repeat split|].
  destruct db as [rows|]; [|by repeat split].
  destruct (findOne (sha256 key) rows) as [i|] eqn:Hf; [|by repeat split].
  simpl. split; [done|]. split.
  - intros key' Hne. by rewrite lookup_insert_ne.
  - intros _. exists rows, i. split; [done|]. split; [done|].
    split; [done|]. apply lookup_insert_eq.
Qed.

Lemma resolve_writes_only_on_success_witness :
  issuerCache (snd (resolveIssuer demoHash (Some [demoIssuer true]) 0 "key-1"
                      initState)) !! "key-2"
  = issuerCache initState !! "key-2".
Proof.
  apply (proj1 (proj2 (resolve_writes_only_on_success demoHash
                         (Some [demoIssuer true]) 0 "key-1" initState))).
  discriminate.
Defined.

(** ** The reset time *)

Lemma entered_window cfg now t key u :
  0 < windowMs cfg ->
  (forall b, usageGet key u = Some b -> windowStart b <= now) ->
  windowStart (entered cfg now t key u) <= now
  /\ now < windowStart (entered cfg now t key u) + windowMs cfg.
Proof.
  intros HW Hle. unfold entered, fetchOrCreate, rollover.
  destruct (usageGet key u) as [b|] eqn:Hb; simpl.
  - specialize (Hle b eq_refl).
    destruct (now - windowStart b >=? windowMs cfg) eqn:E; simpl; lia.
  - destruct (now - now >=? windowMs cfg); simpl; lia.
Qed.

Lemma usageOk_windowStart cfg prev u key b :
  UsageOk cfg prev u -> usageGet key u = Some b -> windowStart b <= prev.
Proof.
  intros [_ HF] Hb. apply usageGet_In in Hb.
  by destruct (proj1 (List.Forall_forall _ _) HF _ Hb) as [_ H].
Qed.

Lemma remaining_nonneg cfg q now issuer t routeKey s :
  0 <= remaining (fst (consume cfg q now issuer t routeKey s))
  /\ limit (fst (consume cfg q now issuer t routeKey s)) = tierLimit cfg t.
Proof.
  rewrite consume_result. destruct (count _ >=? _); simpl; split; (done || lia).
Qed.

Lemma resetAt_bounds cfg q prev now issuer t routeKey s :
  0 < windowMs cfg -> UsageOk cfg prev (usage s) -> prev <= now ->
  now < resetAt (fst (consume cfg q now issuer t routeKey s))
  <= now + windowMs cfg.
Proof.
  intros HW Hok Hclock. rewrite consume_result.
  destruct (entered_window cfg now t (bucketKey issuer routeKey) (usage s) HW)
    as [H1 H2].
  { intros b Hb. pose proof (usageOk_windowStart _ _ _ _ _ Hok Hb). lia. }
  destruct (count _ >=? _); simpl; lia.
Qed.

(** X8.  With a positive window length and a clock that has not gone back
    since the usage map was last written, the [resetAt] that [consume]
    returns, allowed or denied, lies strictly after the time of the call
    and at most one window length after it. *)
Theorem resetAt_within_window cfg q prev now issuer t routeKey s :
  0 < windowMs cfg ->
  UsageOk cfg prev (usage s) ->
  prev <= now ->
  let r := fst (consume cfg q now issuer t routeKey s) in
  now < resetAt r <= now + windowMs cfg.
Proof.
  intros HW Hok Hclock r. subst r. rewrite consume_result.
  destruct (entered_window cfg now t (bucketKey issuer routeKey) (usage s) HW)
    as [H1 H2].
  { intros b Hb. pose proof (usageOk_windowStart _ _ _ _ _ Hok Hb). lia. }
  destruct (count _ >=? _); simpl; lia.
Qed.

Lemma resetAt_within_window_witness :
  let s := snd (runCalls defaultConfig acceptAll
                  (callsAt "issuer-1" FREE "/a" 0 3) initState) in
  let r := fst (consume defaultConfig acceptAll 59999 "issuer-1" FREE "/a" s) in
  59999 < resetAt r <= 59999 + windowMs defaultConfig.
Proof.
  intros s.
  apply (resetAt_within_window defaultConfig acceptAll 2 59999 "issuer-1" FREE
           "/a" s).
  - reflexivity.
  - apply (runCalls_usageOk defaultConfig acceptAll (callsAt "issuer-1" FREE "/a" 0 3) 0 initState);
      [apply initState_usageOk|simpl; lia].
  - lia.
Defined.

(** ** The request gate, path by path *)

(** X9.  A request without a usable key (no [x-api-key] header, an empty
    one, an empty list of values, or a list whose first value is empty) is
    let through: no store lookup, no bucket, no cache entry, no event and
    no rate-limit header. *)
Theorem gate_without_key cfg q sha256 db tResolve tConsume tRetry req s :
  xApiKey req = None
  \/ xApiKey req = Some (HeaderString "")
  \/ xApiKey req = Some (HeaderArray [])
  \/ (exists rest, xApiKey req = Some (HeaderArray ("" :: rest))) ->
  canActivate cfg q sha256 db tResolve tConsume tRetry req s
  = ({| outcome := Returned true; headers := []; attachedIssuer := None |}, s).
Proof.
  unfold canActivate, apiKeyOf.
  intros [-> | [-> | [-> | [rest ->]]]]; reflexivity.
Qed.

Lemma gate_without_key_witness :
  canActivate defaultConfig acceptAll demoHash None 0 0 0
    {| xApiKey := Some (HeaderArray [""; "key-1"]); routePath := Some "/a";
       originalUrl := Some "/a"; url := "/a" |} initState
  = ({| outcome := Returned true; headers := []; attachedIssuer := None |},
     initState).
Proof.
  apply (gate_without_key defaultConfig acceptAll demoHash None 0 0 0
           {| xApiKey := Some (HeaderArray [""; "key-1"]);
              routePath := Some "/a"; originalUrl := Some "/a"; url := "/a" |}
           initState).
  right. right. right. exists ["key-1"]. reflexivity.
Defined.

Lemma resolve_none_keeps_cache sha256 db now key s :
  fst (resolveIssuer sha256 db now key s) = Returned None ->
  issuerCache (snd (resolveIssuer sha256 db now key s)) = issuerCache s.
Proof.
  unfold resolveIssuer.
  destruct (cacheHit now (issuerCache s !! key)); [done|].
  destruct db as [rows|]; [|done].
  by destruct (findOne (sha256 key) rows).
Qed.

(** X10.  A request whose key resolves to no active issuer is rejected as
    unauthorized before the rate limiter is consulted: no rate-limit header
    is set, no issuer is attached, and the usage map and the cache are as
    before. *)
Theorem gate_unknown_key cfg q sha256 db tResolve tConsume tRetry req s apiKey :
  apiKeyOf req = Some apiKey ->
  truthy apiKey = true ->
  fst (resolveIssuer sha256 db tResolve apiKey s) = Returned None ->
  let g := fst (canActivate cfg q sha256 db tResolve tConsume tRetry req s) in
  let s' := snd (canActivate cfg q sha256 db tResolve tConsume tRetry req s) in
  outcome g = Thrown Unauthorized
  /\ headers g = []
  /\ attachedIssuer g = None
  /\ usage s' = usage s
  /\ issuerCache s' = issuerCache s.
Proof.
  intros Hkey Htruthy Hres g s'. subst g s'. unfold canActivate.
  rewrite Hkey, Htruthy. simpl.
  pose proof (resolve_usage sha256 db tResolve apiKey s) as Hu.
  pose proof (resolve_none_keeps_cache sha256 db tResolve apiKey s Hres) as Hc.
  destruct (resolveIssuer sha256 db tResolve apiKey s) as [r s1].
  simpl in *. subst r. simpl. by repeat split.
Qed.

Lemma gate_unknown_key_witness :
  let req := {| xApiKey := Some (HeaderString "key-9"); routePath := Some "/a";
                originalUrl := Some "/a"; url := "/a" |} in
  let g := fst (canActivate defaultConfig acceptAll demoHash
                  (Some [demoIssuer true]) 0 0 0 req initState) in
  let s' := snd (canActivate defaultConfig acceptAll demoHash
                   (Some [demoIssuer true]) 0 0 0 req initState) in
  outcome g = Thrown Unauthorized
  /\ headers g = []
  /\ attachedIssuer g = None
  /\ usage s' = usage initState
  /\ issuerCache s' = issuerCache initState.
Proof.
  intros req.
  apply (gate_unknown_key defaultConfig acceptAll demoHash
           (Some [demoIssuer true]) 0 0 0 req initState "key-9").
  - reflexivity.
  - reflexivity.
  - reflexivity.
Defined.

Lemma ceilSeconds_covers x : x <= 1000 * ceilSeconds x.
Proof.
  unfold ceilSeconds. pose proof (Z.mul_div_le (- x) 1000 ltac:(lia)). lia.
Qed.

Lemma ceilSeconds_mono x y : x <= y -> ceilSeconds x <= ceilSeconds y.
Proof.
  intros H. unfold ceilSeconds.
  pose proof (Z.div_le_mono (- y) (- x) 1000 ltac:(lia) ltac:(lia)). lia.
Qed.

Lemma ceilSeconds_pos x : 0 < x -> 1 <= ceilSeconds x.
Proof.
  intros H. unfold ceilSeconds.
  assert ((- x) / 1000 < 0) by (apply Z.div_lt_upper_bound; lia). lia.
Qed.

(** X11.  For a keyed request whose issuer resolves, the gate attaches the
    issuer and sets the three rate-limit headers from the result of
    [consume] whether the request is let through or not: the limit of the
    resolved tier, a remaining quota that is never negative, and the reset
    time in whole seconds.  The request is let through exactly when
    [consume] allowed it, and then no other header is set. *)
Theorem gate_headers cfg q sha256 db tResolve tConsume tRetry req s
    apiKey issuer s1 :
  apiKeyOf req = Some apiKey ->
  truthy apiKey = true ->
  resolveIssuer sha256 db tResolve apiKey s = (Returned (Some issuer), s1) ->
  let r := fst (consume cfg q tConsume (ctx_id issuer) (ctx_tier issuer)
                  (routePathOf req) s1) in
  let g := fst (canActivate cfg q sha256 db tResolve tConsume tRetry req s) in
  attachedIssuer g = Some issuer
  /\ firstn 3 (headers g)
     = [("X-RateLimit-Limit", tierLimit cfg (ctx_tier issuer));
        ("X-RateLimit-Remaining", remaining r);
        ("X-RateLimit-Reset", resetAt r / 1000)]
  /\ 0 <= remaining r
  /\ (outcome g = Returned true <-> allowed r = true)
  /\ (allowed r = true -> length (headers g) = 3%nat).
Proof.
  intros Hkey Htruthy Hres r g.
  pose proof (remaining_nonneg cfg q tConsume (ctx_id issuer) (ctx_tier issuer)
                (routePathOf req) s1) as [Hrem Hlim].
  fold r in Hrem, Hlim. subst g. unfold canActivate.
  rewrite Hkey, Htruthy, Hres. simpl. fold r.
  destruct (consume cfg q tConsume (ctx_id issuer) (ctx_tier issuer)
              (routePathOf req) s1) as [r' s2] eqn:Ec.
  subst r. simpl in *. rewrite <- Hlim.
  destruct (allowed r') eqn:Ea; simpl; repeat split; try done.
Qed.

Lemma gate_headers_witness :
  let req := {| xApiKey := Some (HeaderString "key-1");
                routePath := Some "/certificates/:id";
                originalUrl := Some "/certificates/7"; url := "/certificates/7" |} in
  let issuer := {| ctx_id := "issuer-1"; ctx_tier := PAID |} in
  let s1 := snd (resolveIssuer demoHash (Some [demoIssuer true]) 0 "key-1"
                   initState) in
  let r := fst (consume defaultConfig acceptAll 1 (ctx_id issuer)
                  (ctx_tier issuer) (routePathOf req) s1) in
  let g := fst (canActivate defaultConfig acceptAll demoHash
                  (Some [demoIssuer true]) 0 1 2 req initState) in
  attachedIssuer g = Some issuer
  /\ firstn 3 (headers g)
     = [("X-RateLimit-Limit", tierLimit defaultConfig (ctx_tier issuer));
        ("X-RateLimit-Remaining", remaining r);
        ("X-RateLimit-Reset", resetAt r / 1000)]
  /\ 0 <= remaining r
  /\ (outcome g = Returned true <-> allowed r = true)
  /\ (allowed r = true -> length (headers g) = 3%nat).
Proof.
  intros req issuer s1.
  apply (gate_headers defaultConfig acceptAll demoHash (Some [demoIssuer true])
           0 1 2 req initState "key-1" issuer s1).
  - reflexivity.
  - reflexivity.
  - vm_compute. reflexivity.
Defined.

(** X12.  When the gate rejects a request for exceeding its quota, with a
    positive window length and a clock that does not go back, the
    [Retry-After] it sets and reports in the error is between 1 second and
    the window length rounded up to whole seconds, and waiting that long
    from the moment it was computed reaches the reset time. *)
Theorem gate_retry_after cfg q sha256 db prev tResolve tConsume tRetry req s
    apiKey issuer s1 :
  0 < windowMs cfg ->
  UsageOk cfg prev (usage s) ->
  prev <= tConsume -> tConsume <= tRetry ->
  apiKeyOf req = Some apiKey ->
  truthy apiKey = true ->
  resolveIssuer sha256 db tResolve apiKey s = (Returned (Some issuer), s1) ->
  let r := fst (consume cfg q tConsume (ctx_id issuer) (ctx_tier issuer)
                  (routePathOf req) s1) in
  let g := fst (canActivate cfg q sha256 db tResolve tConsume tRetry req s) in
  allowed r = false ->
  exists n,
    outcome g = Thrown (TooManyRequests n)
    /\ List.last (headers g) ("", 0) = ("Retry-After", n)
    /\ 1 <= n <= ceilSeconds (windowMs cfg)
    /\ resetAt r <= tRetry + 1000 * n.
Proof.
  intros HW Hok Hprev Hretry Hkey Htruthy Hres r g Hden.
  assert (usage s1 = usage s) as Hu.
  { pose proof (resolve_usage sha256 db tResolve apiKey s) as Hu.
    by rewrite Hres in Hu. }
  assert (tConsume < resetAt r <= tConsume + windowMs cfg) as Hreset.
  { apply (resetAt_bounds cfg q prev); try done. by rewrite Hu. }
  subst g. unfold canActivate. rewrite Hkey, Htruthy, Hres. simpl. fold r.
  destruct (consume cfg q tConsume (ctx_id issuer) (ctx_tier issuer)
              (routePathOf req) s1) as [r' s2] eqn:Ec.
  subst r. simpl in *. rewrite Hden. simpl.
  exists (Z.max (ceilSeconds (resetAt r' - tRetry)) 1).
  pose proof (ceilSeconds_covers (resetAt r' - tRetry)).
  pose proof (ceilSeconds_mono (resetAt r' - tRetry) (windowMs cfg) ltac:(lia)).
  pose proof (ceilSeconds_pos (windowMs cfg) HW).
  repeat split; try done; lia.
Qed.

Lemma gate_retry_after_witness :
  let cfg := configure None None (Some 1) in
  let req := {| xApiKey := Some (HeaderString "key-1"); routePath := Some "/a";
                originalUrl := Some "/a"; url := "/a" |} in
  let issuer := {| ctx_id := "issuer-1"; ctx_tier := PAID |} in
  let s := snd (runCalls cfg acceptAll [mkCall 0 "issuer-1" PAID "/a"]
                  initState) in
  let s1 := snd (resolveIssuer demoHash (Some [demoIssuer true]) 10 "key-1" s) in
  let r := fst (consume cfg acceptAll 20 (ctx_id issuer) (ctx_tier issuer)
                  (routePathOf req) s1) in
  let g := fst (canActivate cfg acceptAll demoHash (Some [demoIssuer true])
                  10 20 30 req s) in
  exists n,
    outcome g = Thrown (TooManyRequests n)
    /\ List.last (headers g) ("", 0) = ("Retry-After", n)
    /\ 1 <= n <= ceilSeconds (windowMs cfg)
    /\ resetAt r <= 30 + 1000 * n.
Proof.
  intros cfg req issuer s s1.
  apply (gate_retry_after cfg acceptAll demoHash (Some [demoIssuer true])
           0 10 20 30 req s "key-1" issuer s1).
  - reflexivity.
  - apply (runCalls_usageOk cfg acceptAll [mkCall 0 "issuer-1" PAID "/a"] 0 initState);
      [apply initState_usageOk|simpl; lia].
  - lia.
  - lia.
  - reflexivity.
  - reflexivity.
  - vm_compute. reflexivity.
  - vm_compute. reflexivity.
Defined.

(** ** The usage summary and the usage endpoint *)

Lemma summarize_In cfg now u row :
  In row (summarize cfg now u) <->
  exists key b, In (key, b) u /\ now - windowStart b < windowMs cfg
                /\ row = usageRow cfg key b.
Proof.
  induction u as [|[k b0] u IH]; simpl.
  - split; [done|]. by intros (? & ? & [] & _).
  - destruct (now - windowStart b0 >=? windowMs cfg) eqn:E; simpl.
    + rewrite IH. split.
      * intros (key & b & Hin & Hw & Hr). exists key, b. tauto.
      * intros (key & b & [Heq|Hin] & Hw & Hr).
        -- injection Heq as -> ->. lia.
        -- by exists key, b.
    + rewrite IH. split.
      * intros [<-|(key & b & Hin & Hw & Hr)].
        -- exists k, b0. split; [by left|]. split; [lia|done].
        -- exists key, b. tauto.
      * intros (key & b & [Heq|Hin] & Hw & Hr).
        -- injection Heq as -> ->. by left.
        -- right. by exists key, b.
Qed.

(** X13.  Every row the usage endpoint reports belongs to a window that is
    still running: its [resetAt] lies after the time of the request, and,
    for a usage map written by a clock that does not go back, at most the
    reported window length after it; its count lies between 0 and the
    larger of the two limits, and its limit is the limit of its tier. *)
Theorem usage_rows_are_live cfg now s row :
  UsageOk cfg now (usage s) ->
  In row (snd (getUsage cfg now s)) ->
  now < row_resetAt row <= now + fst (getUsage cfg now s)
  /\ 0 <= row_count row <= countCap cfg
  /\ row_limit row = tierLimit cfg (row_tier row).
Proof.
  intros [_ HF] Hin. unfold getUsage, getUsageSummary in *. simpl in *.
  apply summarize_In in Hin as (key & b & Hb & Hw & ->).
  pose proof (proj1 (List.Forall_forall _ _) HF _ Hb) as Hok. simpl in *.
  lia.
Qed.

Lemma usage_rows_are_live_witness :
  let s := snd (runCalls defaultConfig acceptAll
                  (callsAt "issuer-1" FREE "/a" 0 3) initState) in
  let row := {| row_issuerId := "issuer-1"; row_route := Some "/a";
                row_tier := FREE; row_count := 3; row_limit := 60;
                row_resetAt := 60000 |} in
  2 < row_resetAt row <= 2 + fst (getUsage defaultConfig 2 s)
  /\ 0 <= row_count row <= countCap defaultConfig
  /\ row_limit row = tierLimit defaultConfig (row_tier row).
Proof.
  intros s row.
  apply (usage_rows_are_live defaultConfig 2 s row).
  - apply (runCalls_usageOk defaultConfig acceptAll (callsAt "issuer-1" FREE "/a" 0 3) 0 initState);
      [apply initState_usageOk|simpl; lia].
  - vm_compute. left. reflexivity.
Defined.

(** X14.  With a positive window length, the bucket a consume has just
    worked on is reported by a summary taken at the same time, allowed or
    denied: with its count, its tier, and the [resetAt] the consume
    returned. *)
Theorem consumed_bucket_is_reported cfg q now issuer t routeKey s :
  0 < windowMs cfg ->
  (forall b, usageGet (bucketKey issuer routeKey) (usage s) = Some b ->
             windowStart b <= now) ->
  let r := fst (consume cfg q now issuer t routeKey s) in
  let s' := snd (consume cfg q now issuer t routeKey s) in
  exists b,
    usageGet (bucketKey issuer routeKey) (usage s') = Some b
    /\ In (usageRow cfg (bucketKey issuer routeKey) b)
          (getUsageSummary cfg now s')
    /\ row_resetAt (usageRow cfg (bucketKey issuer routeKey) b) = resetAt r
    /\ (allowed r = true ->
        row_count (usageRow cfg (bucketKey issuer routeKey) b) + remaining r
        = limit r).
Proof.
  intros HW Hle r s'. subst r s'.
  destruct (entered_window cfg now t (bucketKey issuer routeKey) (usage s) HW Hle)
    as [H1 H2].
  eexists. split; [apply consume_usage_same|].
  rewrite consume_result. split; [|split].
  - unfold getUsageSummary. apply summarize_In. do 2 eexists.
    split; [apply usageGet_In, consume_usage_same|].
    split; [|done]. rewrite settled_windowStart. lia.
  - simpl. rewrite settled_windowStart. by destruct (count _ >=? _).
  - simpl. rewrite settled_count.
    destruct (count _ >=? _) eqn:E; simpl; [done|]. lia.
Qed.

Lemma consumed_bucket_is_reported_witness :
  let r := fst (consume defaultConfig acceptAll 5 "issuer-1" FREE "/a"
                  initState) in
  let s' := snd (consume defaultConfig acceptAll 5 "issuer-1" FREE "/a"
                   initState) in
  exists b,
    usageGet (bucketKey "issuer-1" "/a") (usage s') = Some b
    /\ In (usageRow defaultConfig (bucketKey "issuer-1" "/a") b)
          (getUsageSummary defaultConfig 5 s')
    /\ row_resetAt (usageRow defaultConfig (bucketKey "issuer-1" "/a") b)
       = resetAt r
    /\ (allowed r = true ->
        row_count (usageRow defaultConfig (bucketKey "issuer-1" "/a") b)
        + remaining r = limit r).
Proof.
  apply (consumed_bucket_is_reported defaultConfig acceptAll 5 "issuer-1" FREE
           "/a" initState).
  - reflexivity.
  - intros b Hb. discriminate Hb.
Defined.

(** ** Bucket keys *)

Lemma bucketKey_inj issuer routeKey issuer' routeKey' :
  hasColon issuer = false -> hasColon issuer' = false ->
  bucketKey issuer routeKey = bucketKey issuer' routeKey' ->
  issuer = issuer' /\ routeKey = routeKey'.
Proof.
  unfold bucketKey. revert issuer'.
  induction issuer as [|c i IH]; intros [|c' i']; simpl.
  - intros _ _ Heq. by simplify_eq.
  - intros _ H Heq. by simplify_eq/=.
  - intros H _ Heq. by simplify_eq/=.
  - destruct (Ascii.eqb c ":") eqn:E; [done|].
    destruct (Ascii.eqb c' ":") eqn:E'; [done|]. simpl.
    intros Hi Hi' Heq. injection Heq as Hc Heq. subst c'.
    by destruct (IH i' Hi Hi' Heq) as [-> ->].
Qed.

Lemma splitOn_colon_free s : hasColon s = false -> splitOn ":" s = [s].
Proof.
  induction s as [|c r IH]; simpl; [done|].
  destruct (Ascii.eqb c ":"); simpl; [done|]. intros H. by rewrite IH.
Qed.

(** X15.  Issuer ids without a colon keep buckets apart: a consume for one
    issuer and route leaves the bucket of every other pair of issuer and
    route as it was, even when route keys hold colons, and the key of such
    a pair splits back into the issuer id and, for a colon-free route, the
    route.  An issuer id with a colon can share a bucket with another
    pair. *)
Theorem buckets_are_isolated cfg q now issuer t routeKey s issuer' routeKey' :
  hasColon issuer = false -> hasColon issuer' = false ->
  (issuer, routeKey) <> (issuer', routeKey') ->
  usageGet (bucketKey issuer' routeKey')
    (usage (snd (consume cfg q now issuer t routeKey s)))
  = usageGet (bucketKey issuer' routeKey') (usage s)
  /\ (hasColon routeKey = false ->
      splitOn ":" (bucketKey issuer routeKey) = [issuer; routeKey])
  /\ bucketKey "a:b" "c" = bucketKey "a" "b:c".
Proof.
  intros Hi Hi' Hne. split; [|split].
  - apply consume_usage_other. intros Heq.
    apply bucketKey_inj in Heq as [-> ->]; done.
  - intros Hr. rewrite splitOn_bucketKey by done.
    by rewrite splitOn_colon_free.
  - reflexivity.
Qed.

Lemma buckets_are_isolated_witness :
  let s := snd (consume defaultConfig acceptAll 0 "issuer-1" FREE
                  "/certificates/:id" initState) in
  usageGet (bucketKey "issuer-1" "/certificates/:id")
    (usage (snd (consume defaultConfig acceptAll 1 "issuer-1" FREE
                   "/certificates" s)))
  = usageGet (bucketKey "issuer-1" "/certificates/:id") (usage s)
  /\ (hasColon "/certificates" = false ->
      splitOn ":" (bucketKey "issuer-1" "/certificates")
      = ["issuer-1"; "/certificates"])
  /\ bucketKey "a:b" "c" = bucketKey "a" "b:c".
Proof.
  intros s.
  apply (buckets_are_isolated defaultConfig acceptAll 1 "issuer-1" FREE
           "/certificates" s "issuer-1" "/certificates/:id").
  - reflexivity.
  - reflexivity.
  - discriminate.
Defined.

(** ** Configuration *)

Lemma numberOr_pos raw d :
  1 <= d -> (forall v, raw = Some v -> 0 <= v) -> 1 <= numberOr raw d.
Proof.
  intros Hd Hraw. unfold numberOr. destruct raw as [v|]; [|done].
  specialize (Hraw v eq_refl). destruct (v =? 0) eqn:E; lia.
Qed.

(** X16.  A limit configured as 0, like one that is not configured, means
    the default (60 and 600 per window), not "no requests": the service
    never holds a limit or a window length of 0, and with limits that are
    not negative the first consume on a key without a bucket is allowed,
    with [remaining = limit - 1] and [resetAt] one window after the
    call. *)
Theorem zero_limit_is_default rawWindow rawFree rawPaid q now issuer t routeKey s :
  (forall v, rawFree = Some v -> 0 <= v) ->
  (forall v, rawPaid = Some v -> 0 <= v) ->
  usageGet (bucketKey issuer routeKey) (usage s) = None ->
  let cfg := configure rawWindow rawFree rawPaid in
  windowMs cfg <> 0 /\ freeLimit cfg <> 0 /\ paidLimit cfg <> 0
  /\ configure (Some 0) (Some 0) (Some 0) = configure None None None
  /\ fst (consume cfg q now issuer t routeKey s)
     = {| allowed := true; limit := tierLimit cfg t;
          remaining := tierLimit cfg t - 1; resetAt := now + windowMs cfg |}
  /\ bucketCount (bucketKey issuer routeKey)
       (snd (consume cfg q now issuer t routeKey s)) = Some 1.
Proof.
  intros Hf Hp Hnone cfg.
  assert (1 <= tierLimit cfg t) as HL.
  { destruct t; simpl; by apply numberOr_pos. }
  assert (entered cfg now t (bucketKey issuer routeKey) (usage s)
          = freshBucket now t) as He.
  { unfold entered, fetchOrCreate, rollover, freshBucket. rewrite Hnone.
    simpl. by destruct (_ >=? _). }
  split; [|split; [|split; [|split; [done|split]]]].
  - simpl. unfold numberOr. destruct rawWindow as [v|]; [|done].
    destruct (v =? 0) eqn:E; lia.
  - simpl. unfold numberOr. destruct rawFree as [v|]; [|done].
    destruct (v =? 0) eqn:E; lia.
  - simpl. unfold numberOr. destruct rawPaid as [v|]; [|done].
    destruct (v =? 0) eqn:E; lia.
  - rewrite consume_result, He. simpl.
    destruct (0 >=? tierLimit cfg t) eqn:E; [lia|]. f_equal. lia.
  - unfold bucketCount. rewrite consume_usage_same, He. simpl.
    rewrite settled_count. simpl.
    destruct (0 >=? tierLimit cfg t) eqn:E; [lia|done].
Qed.

Lemma zero_limit_is_default_witness :
  let cfg := configure (Some 1000) (Some 0) (Some 5) in
  windowMs cfg <> 0 /\ freeLimit cfg <> 0 /\ paidLimit cfg <> 0
  /\ configure (Some 0) (Some 0) (Some 0) = configure None None None
  /\ fst (consume cfg rejectAll 3 "issuer-1" FREE "/a" initState)
     = {| allowed := true; limit := tierLimit cfg FREE;
          remaining := tierLimit cfg FREE - 1; resetAt := 3 + windowMs cfg |}
  /\ bucketCount (bucketKey "issuer-1" "/a")
       (snd (consume cfg rejectAll 3 "issuer-1" FREE "/a" initState)) = Some 1.
Proof.
  apply (zero_limit_is_default (Some 1000) (Some 0) (Some 5) rejectAll 3
           "issuer-1" FREE "/a" initState).
  - intros v [= <-]. lia.
  - intros v [= <-]. lia.
  - reflexivity.
Defined.

(** ** The reset time of a bucket over two consumes *)

(** X17.  Fixed windows: between two consecutive consumes on a bucket, at
    whatever tiers, the reset time stays the same as long as the second
    consume comes before it, and once it has been reached the second
    consume moves it to one window length after its own time. *)
Theorem resetAt_moves_only_when_reached cfg q now1 now2 issuer t1 t2 routeKey s :
  let r1 := fst (consume cfg q now1 issuer t1 routeKey s) in
  let s1 := snd (consume cfg q now1 issuer t1 routeKey s) in
  let r2 := fst (consume cfg q now2 issuer t2 routeKey s1) in
  (now2 < resetAt r1 -> resetAt r2 = resetAt r1)
  /\ (resetAt r1 <= now2 -> resetAt r2 = now2 + windowMs cfg).
Proof.
  intros r1 s1 r2.
  assert (resetAt r1
          = windowStart (settled cfg t1
                           (entered cfg now1 t1 (bucketKey issuer routeKey)
                              (usage s))) + windowMs cfg) as H1.
  { subst r1. rewrite consume_result, settled_windowStart.
    by destruct (count _ >=? _). }
  assert (resetAt r2
          = windowStart (rollover cfg now2 t2
                           (settled cfg t1
                              (entered cfg now1 t1 (bucketKey issuer routeKey)
                                 (usage s)))) + windowMs cfg) as H2.
  { subst r2 s1. rewrite consume_result.
    rewrite (entered_existing _ _ _ _ _ _ (consume_usage_same _ _ _ _ _ _ _)).
    by destruct (count _ >=? _). }
  rewrite H1, H2. unfold rollover.
  destruct (now2 - windowStart _ >=? windowMs cfg) eqn:E; simpl; lia.
Qed.

Lemma resetAt_moves_only_when_reached_witness :
  let r1 := fst (consume defaultConfig acceptAll 100 "issuer-1" FREE "/a"
                   initState) in
  let s1 := snd (consume defaultConfig acceptAll 100 "issuer-1" FREE "/a"
                   initState) in
  let r2 := fst (consume defaultConfig acceptAll 60100 "issuer-1" PAID "/a" s1) in
  resetAt r2 = 60100 + windowMs defaultConfig.
Proof.
  apply (proj2 (resetAt_moves_only_when_reached defaultConfig acceptAll 100
                  60100 "issuer-1" FREE PAID "/a" initState)).
  vm_compute. discriminate.
Defined.

(** ** Metrics, log lines and the store *)

Lemma emitted_counts cfg q now issuer t routeKey b tr :
  countEvents isMetric (emitted cfg q now issuer t routeKey b tr)
  = (if count b >=? tierLimit cfg t then 0 else 1)%nat
  /\ countEvents isLog (emitted cfg q now issuer t routeKey b tr)
     = countEvents isAcceptedUpgrade (emitted cfg q now issuer t routeKey b tr)
  /\ countEvents isDbFindEvent (emitted cfg q now issuer t routeKey b tr)
     = 0%nat.
Proof.
  unfold emitted. destruct (count b >=? tierLimit cfg t); [done|].
  destruct (shouldNotify _ _ _); [|done].
  unfold countEvents; simpl. by destruct (q _ _).
Qed.

(** X18.  Over any sequence of consumes, from any state: one metric is
    recorded for each allowed consume and none for a denied one; an upgrade
    log line is written exactly as often as the queue accepted an upgrade
    job, never for a job it refused; and the issuer store is never
    queried. *)
Theorem run_event_counts cfg q cs s :
  let rs := fst (runCalls cfg q cs s) in
  let s' := snd (runCalls cfg q cs s) in
  countEvents isMetric (trace s')
  = (countEvents isMetric (trace s) + admissions rs)%nat
  /\ (countEvents isLog (trace s') + countEvents isAcceptedUpgrade (trace s)
      = countEvents isLog (trace s) + countEvents isAcceptedUpgrade (trace s'))%nat
  /\ countEvents isDbFindEvent (trace s') = countEvents isDbFindEvent (trace s)
  /\ (admissions rs + denials rs = length cs)%nat.
Proof.
  revert s. induction cs as [|c cs IH]; intros s; simpl.
  - unfold admissions, denials; simpl. lia.
  - pose proof (step_trace cfg q c s) as HT.
    pose proof (consume_result cfg q (c_now c) (c_issuer c) (c_tier c)
                  (c_route c) s) as HR.
    fold (step cfg q c s) in HR. fold (callKey c) in HR.
    destruct (emitted_counts cfg q (c_now c) (c_issuer c) (c_tier c) (c_route c)
                (entered cfg (c_now c) (c_tier c) (callKey c) (usage s))
                (trace s)) as (Hm & Hl & Hd).
    destruct (step cfg q c s) as [r s1]. simpl in HT, HR.
    specialize (IH s1). destruct (runCalls cfg q cs s1) as [rs s2].
    simpl in *. destruct IH as (IH1 & IH2 & IH3 & IH4).
    rewrite HT in IH1, IH2, IH3.
    repeat rewrite countEvents_app in IH1.
    repeat rewrite countEvents_app in IH2.
    repeat rewrite countEvents_app in IH3.
    unfold admissions, denials in *. simpl.
    assert (allowed r = negb (count (entered cfg (c_now c) (c_tier c)
                                       (callKey c) (usage s))
                              >=? tierLimit cfg (c_tier c))) as Ha.
    { rewrite HR. by destruct (count _ >=? _). }
    rewrite Ha. destruct (count _ >=? _); simpl; lia.
Qed.

(** ** The cache after a resolution, and a store that cannot be reached *)

(** X19.  Whenever a resolution returns an identity, served from the cache
    or just looked up, the cache afterwards holds an entry for the key that
    is still live at that time and carries exactly the identity returned. *)
Theorem resolved_identity_is_cached sha256 db now key s ctx :
  fst (resolveIssuer sha256 db now key s) = Returned (Some ctx) ->
  exists e,
    issuerCache (snd (resolveIssuer sha256 db now key s)) !! key = Some e
    /\ now < cacheUntil e
    /\ ctx = {| ctx_id := issuerId e; ctx_tier := cachedTier e |}.
Proof.
  unfold resolveIssuer, cacheHit.
  destruct (issuerCache s !! key) as [e|] eqn:He.
  - destruct (cacheUntil e >? now) eqn:E.
    + simpl. intros [= <-]. exists e. split; [done|]. split; [lia|done].
    + destruct db as [rows|]; [|done].
      destruct (findOne (sha256 key) rows) as [i|]; [|done].
      simpl. intros [= <-]. eexists. rewrite lookup_insert_eq.
      split; [done|]. simpl. split; [lia|done].
  - destruct db as [rows|]; [|done].
    destruct (findOne (sha256 key) rows) as [i|]; [|done].
    simpl. intros [= <-]. eexists. rewrite lookup_insert_eq.
    split; [done|]. simpl. split; [lia|done].
Qed.

Lemma resolved_identity_is_cached_witness :
  exists e,
    issuerCache (snd (resolveIssuer demoHash (Some [demoIssuer true]) 7 "key-1"
                        initState)) !! "key-1" = Some e
    /\ 7 < cacheUntil e
    /\ {| ctx_id := "issuer-1"; ctx_tier := PAID |}
       = {| ctx_id := issuerId e; ctx_tier := cachedTier e |}.
Proof.
  apply (resolved_identity_is_cached demoHash (Some [demoIssuer true]) 7
           "key-1" initState {| ctx_id := "issuer-1"; ctx_tier := PAID |}).
  reflexivity.
Defined.

(** X20.  A store that cannot be reached only affects keys that are not in
    the cache.  For a key with a live cache entry the gate does not look at
    the store at all: its verdict, headers and resulting state are the same
    whatever the store holds or whether it answers.  For a key without a
    live entry the failure of the store is passed on to the caller, and no
    bucket, cache entry or header is written. *)
Theorem gate_store_outage cfg q sha256 tResolve tConsume tRetry req s apiKey :
  apiKeyOf req = Some apiKey ->
  truthy apiKey = true ->
  (forall e, issuerCache s !! apiKey = Some e -> tResolve < cacheUntil e ->
     forall db,
       canActivate cfg q sha256 db tResolve tConsume tRetry req s
       = canActivate cfg q sha256 None tResolve tConsume tRetry req s)
  /\ (cacheHit tResolve (issuerCache s !! apiKey) = None ->
      let g := fst (canActivate cfg q sha256 None tResolve tConsume tRetry req s) in
      let s' := snd (canActivate cfg q sha256 None tResolve tConsume tRetry req s) in
      outcome g = Thrown StoreUnavailable
      /\ headers g = []
      /\ usage s' = usage s
      /\ issuerCache s' = issuerCache s).
Proof.
  intros Hkey Htruthy. split.
  - intros e He Hlive db. unfold canActivate. rewrite Hkey, Htruthy. simpl.
    unfold resolveIssuer, cacheHit. rewrite He.
    by destruct (cacheUntil e >? tResolve) eqn:E; [|lia].
  - intros Hmiss g s'. subst g s'. unfold canActivate.
    rewrite Hkey, Htruthy. simpl. unfold resolveIssuer. by rewrite Hmiss.
Qed.

Lemma gate_store_outage_witness :
  let req := {| xApiKey := Some (HeaderString "key-1"); routePath := Some "/a";
                originalUrl := Some "/a"; url := "/a" |} in
  let g := fst (canActivate defaultConfig acceptAll demoHash None 0 0 0 req
                  initState) in
  let s' := snd (canActivate defaultConfig acceptAll demoHash None 0 0 0 req
                   initState) in
  outcome g = Thrown StoreUnavailable
  /\ headers g = []
  /\ usage s' = usage initState
  /\ issuerCache s' = issuerCache initState.
Proof.
  intros req.
  apply (proj2 (gate_store_outage defaultConfig acceptAll demoHash 0 0 0 req
                  initState "key-1" eq_refl eq_refl)).
  reflexivity.
Defined.

(** ** The notice comes before the denial *)

(** X21.  In a window opened at FREE tier in which every consume on the
    bucket is FREE, with a limit of at least 1, the upgrade threshold lies
    at or below the limit; so by the time the quota is used up the upgrade
    notice of the window has been dispatched: no consume of the window is
    denied before it. *)
Theorem notice_precedes_denial cfg q s c0 pre :
  1 <= freeLimit cfg ->
  c_tier c0 = FREE ->
  opensWindow cfg c0 s ->
  Forall (inWindowFree cfg (callKey c0) (c_now c0)) pre ->
  freeLimit cfg <= 1 + hits (callKey c0) pre ->
  let s1 := snd (runCalls cfg q (c0 :: pre) s) in
  1 <= noticeAt cfg <= freeLimit cfg
  /\ countEvents (isUpgradeAddFor (callKey c0)) (trace s1)
     = (countEvents (isUpgradeAddFor (callKey c0)) (trace s) + 1)%nat
  /\ (notifiedUpgrade <$> usageGet (callKey c0) (usage s1)) = Some true.
Proof.
  intros HL Ht Hopen Hpre Hfull s1.
  pose proof (m_le_limit cfg HL) as Hm.
  destruct (window_after cfg q s c0 pre HL Ht Hopen Hpre)
    as (b & Hget & _ & _ & Hnot & Hev).
  fold s1 in Hget, Hev.
  assert ((noticeAt cfg <=? 1 + hits (callKey c0) pre) = true) as E by lia.
  rewrite E in Hnot, Hev. split; [done|]. split; [done|].
  by rewrite Hget; simpl; rewrite Hnot.
Qed.

Lemma notice_precedes_denial_witness :
  let cfg := configure None (Some 5) None in
  let c0 := mkCall 0 "issuer-1" FREE "/a" in
  let pre := callsAt "issuer-1" FREE "/a" 1 4 in
  let s1 := snd (runCalls cfg rejectAll (c0 :: pre) initState) in
  1 <= noticeAt cfg <= freeLimit cfg
  /\ countEvents (isUpgradeAddFor (callKey c0)) (trace s1)
     = (countEvents (isUpgradeAddFor (callKey c0)) (trace initState) + 1)%nat
  /\ (notifiedUpgrade <$> usageGet (callKey c0) (usage s1)) = Some true.
Proof.
  apply (notice_precedes_denial (configure None (Some 5) None) rejectAll
           initState (mkCall 0 "issuer-1" FREE "/a")
           (callsAt "issuer-1" FREE "/a" 1 4)).
  - vm_compute. discriminate.
  - reflexivity.
  - exact I.
  - repeat constructor; vm_compute; reflexivity.
  - vm_compute. discriminate.
Defined.
